(** * survey-converter: a shallow embedding of the inference core

    The development follows [survey_parser.py] (table-option extraction,
    question segmentation, option assignment, type inference) and
    [xml_generator.py] (type-directed emission).

    Python [str] values are sequences of Unicode code points, so a string is
    a list of code points here.  The character tables of the interpreter
    (whitespace, digits, case mapping) are not part of the repository: they
    are the fields of the class [Unicode], and every general theorem holds
    for every such table.  Lists that the Python code shares between a
    question and the table-option sequence are kept in one store and the
    questions hold references into it. *)

From Stdlib Require Import String Ascii List Bool Arith ZArith NArith Lia Permutation.
Import ListNotations.

Set Implicit Arguments.
Local Open Scope Z_scope.

(** ** Strings *)

Definition char := N.
Definition str := list char.

(** Reading a literal of the development (UTF-8 bytes) as code points. *)
Fixpoint utf8_decode (bs : list N) : str :=
  match bs with
  | [] => []
  | b0 :: t =>
      if (b0 <? 128)%N then b0 :: utf8_decode t
      else if (b0 <? 224)%N then
        match t with
        | b1 :: t' => ((b0 - 192) * 64 + (b1 - 128))%N :: utf8_decode t'
        | _ => []
        end
      else if (b0 <? 240)%N then
        match t with
        | b1 :: b2 :: t' =>
            ((b0 - 224) * 4096 + (b1 - 128) * 64 + (b2 - 128))%N :: utf8_decode t'
        | _ => []
        end
      else
        match t with
        | b1 :: b2 :: b3 :: t' =>
            ((b0 - 240) * 262144 + (b1 - 128) * 4096 + (b2 - 128) * 64 + (b3 - 128))%N
              :: utf8_decode t'
        | _ => []
        end
  end.

Definition u (s : string) : str :=
  utf8_decode (map N_of_ascii (list_ascii_of_string s)).

Definition c_newline : char := 10%N.
Definition c_dot : char := 46%N.
Definition c_amp : char := 38%N.
Definition c_lt : char := 60%N.
Definition c_gt : char := 62%N.
Definition c_quot : char := 34%N.
Definition c_apos : char := 39%N.

Definition char_eqb (a b : char) : bool := N.eqb a b.

Fixpoint str_eqb (a b : str) : bool :=
  match a, b with
  | [], [] => true
  | x :: a', y :: b' => char_eqb x y && str_eqb a' b'
  | _, _ => false
  end.

(** Python truthiness of a string or list: non-empty. *)
Definition truthy {A} (l : list A) : bool :=
  match l with [] => false | _ => true end.

Fixpoint starts_with (p s : str) : bool :=
  match p, s with
  | [], _ => true
  | x :: p', y :: s' => char_eqb x y && starts_with p' s'
  | _ :: _, [] => false
  end.

(** [needle in hay] *)
Fixpoint str_in (needle hay : str) : bool :=
  starts_with needle hay ||
  match hay with
  | [] => false
  | _ :: hay' => str_in needle hay'
  end.

(** [s.replace(c, r)] for a one-character [c]. *)
Definition replace (c : char) (r : str) (s : str) : str :=
  flat_map (fun x => if char_eqb x c then r else [x]) s.

(** [s.split(c)] for a one-character separator: never an empty list. *)
Fixpoint split (c : char) (s : str) : list str :=
  match s with
  | [] => [[]]
  | x :: s' =>
      if char_eqb x c then [] :: split c s'
      else match split c s' with
           | [] => [[x]]
           | w :: ws => (x :: w) :: ws
           end
  end.

(** [str(n)] for an integer. *)
Fixpoint digits_of (fuel : nat) (n : N) (acc : str) : str :=
  match fuel with
  | O => acc
  | S fuel' =>
      let acc' := (48 + n mod 10)%N :: acc in
      if (n / 10 =? 0)%N then acc' else digits_of fuel' (n / 10)%N acc'
  end.

Definition str_of_N (n : N) : str := digits_of (S (N.to_nat n)) n [].

Definition str_of_Z (z : Z) : str :=
  if z <? 0 then 45%N :: str_of_N (Z.to_N (- z)) else str_of_N (Z.to_N z).

(** ** The interpreter's character tables *)

Class Unicode : Type := {
  (** [Py_UNICODE_ISSPACE]: [str.strip()] and the regular expression [\s] *)
  isspace : char -> bool;
  (** the per-character test of [str.isdigit()] *)
  isdigit_char : char -> bool;
  (** [Py_UNICODE_ISDECIMAL]: the regular expression [\d] *)
  isdecimal : char -> bool;
  (** [str.lower()] *)
  lower : str -> str;
  (** comparison of a pattern literal with a subject character under
      [re.IGNORECASE] *)
  ignorecase_eq : char -> char -> bool
}.

Section Strings.
Context {U : Unicode}.

Fixpoint lstrip (s : str) : str :=
  match s with
  | [] => []
  | x :: s' => if isspace x then lstrip s' else s
  end.

Definition rstrip (s : str) : str := rev (lstrip (rev s)).

(** [s.strip()] *)
Definition strip (s : str) : str := rstrip (lstrip s).

(** [s.isdigit()] *)
Definition isdigit (s : str) : bool := truthy s && forallb isdigit_char s.
End Strings.

(** ** Regular expressions

    The patterns of [SurveyParser.question_patterns] are data; [re_match]
    follows the backtracking search of [re.match]: alternatives in order,
    greedy repetition longest first, lazy repetition shortest first, and the
    groups of the first successful path. *)

Inductive regex : Type :=
| Eps
| Lit (c : char)
| Range (lo hi : char)            (* [lo-hi] *)
| Space                           (* \s *)
| Digit                           (* \d *)
| AnyChar                         (* .  (no DOTALL) *)
| Eol                             (* $  (no MULTILINE) *)
| Seq (r1 r2 : regex)
| Alt (r1 r2 : regex)
| Star (greedy : bool) (r : regex)
| Group (n : nat) (r : regex).

Definition Plus (greedy : bool) (r : regex) : regex := Seq r (Star greedy r).
Definition Opt (r : regex) : regex := Alt r Eps.

Fixpoint Lits (s : str) : regex :=
  match s with
  | [] => Eps
  | c :: s' => Seq (Lit c) (Lits s')
  end.

(** group number, start and end offset in the subject *)
Definition captures := list (nat * (nat * nat)).

Fixpoint capture (n : nat) (cs : captures) : option (nat * nat) :=
  match cs with
  | [] => None
  | (m, span) :: cs' => if Nat.eqb m n then Some span else capture n cs'
  end.

Section Regex.
Context {U : Unicode}.
Variable ignorecase : bool.

Definition lit_match (c x : char) : bool :=
  if ignorecase then ignorecase_eq c x else char_eqb c x.

Definition range_match (lo hi x : char) : bool :=
  if ignorecase
  then existsb (fun n => ignorecase_eq (lo + N.of_nat n)%N x)
               (seq 0 (N.to_nat (hi + 1 - lo)))
  else ((lo <=? x)%N && (x <=? hi)%N).

Definition one_char (p : char -> bool) (pos : nat) (s : str) (cs : captures)
    (k : nat -> str -> captures -> option captures) : option captures :=
  match s with
  | x :: s' => if p x then k (S pos) s' cs else None
  | [] => None
  end.

Fixpoint re_run (r : regex) (pos : nat) (s : str) (cs : captures)
    (k : nat -> str -> captures -> option captures) {struct r} : option captures :=
  match r with
  | Eps => k pos s cs
  | Lit c => one_char (lit_match c) pos s cs k
  | Range lo hi => one_char (range_match lo hi) pos s cs k
  | Space => one_char isspace pos s cs k
  | Digit => one_char isdecimal pos s cs k
  | AnyChar => one_char (fun x => negb (char_eqb x c_newline)) pos s cs k
  | Eol =>
      match s with
      | [] => k pos s cs
      | [x] => if char_eqb x c_newline then k pos s cs else None
      | _ => None
      end
  | Seq r1 r2 => re_run r1 pos s cs (fun pos' s' cs' => re_run r2 pos' s' cs' k)
  | Alt r1 r2 =>
      match re_run r1 pos s cs k with
      | Some res => Some res
      | None => re_run r2 pos s cs k
      end
  | Star greedy r1 =>
      (fix iterate (fuel : nat) (pos : nat) (s : str) (cs : captures) : option captures :=
         match fuel with
         | O => k pos s cs
         | S fuel' =>
             let again :=
               re_run r1 pos s cs
                 (fun pos' s' cs' =>
                    if (length s' <? length s)%nat then iterate fuel' pos' s' cs' else None) in
             if greedy then
               match again with
               | Some res => Some res
               | None => k pos s cs
               end
             else
               match k pos s cs with
               | Some res => Some res
               | None => again
               end
         end) (S (length s)) pos s cs
  | Group n r1 =>
      re_run r1 pos s cs (fun pos' s' cs' => k pos' s' ((n, (pos, pos')) :: cs'))
  end.

(** [re.match(pattern, s, flags)]: anchored at the start of [s]. *)
Definition re_match (r : regex) (s : str) : option captures :=
  re_run r 0%nat s [] (fun _ _ cs => Some cs).

(** [m.group(n)] of a successful match on [s]. *)
Definition group (n : nat) (s : str) (cs : captures) : str :=
  match capture n cs with
  | Some (b, e) => firstn (e - b) (skipn b s)
  | None => []
  end.
End Regex.

(** [self.question_patterns]: the leading [^] is implied by [re.match]. *)
Module question_patterns.
Definition ws1 : regex := Plus true Space.

(** [^(ASK\s+ALL|ASK\s+IF\s+.+)$] *)
Definition answer_logic : regex :=
  Seq (Group 1 (Alt (Seq (Lits (u "ASK")) (Seq ws1 (Lits (u "ALL"))))
                    (Seq (Lits (u "ASK"))
                         (Seq ws1 (Seq (Lits (u "IF")) (Seq ws1 (Plus true AnyChar)))))))
      Eol.

(** [^(\d+\.\d+[a-zA-Z]?)\s*(.+)$] *)
Definition question_number : regex :=
  Seq (Group 1 (Seq (Plus true Digit)
                    (Seq (Lit c_dot)
                         (Seq (Plus true Digit)
                              (Opt (Alt (Range 97%N 122%N) (Range 65%N 90%N)))))))
      (Seq (Star true Space) (Seq (Group 2 (Plus true AnyChar)) Eol)).

(** [^(Single\s+Answer|Multiple\s+Answers?|Open\s+Answer|Numeric)\.?\s*.*$] *)
Definition question_type : regex :=
  Seq (Group 1
         (Alt (Seq (Lits (u "Single")) (Seq ws1 (Lits (u "Answer"))))
         (Alt (Seq (Lits (u "Multiple"))
                   (Seq ws1 (Seq (Lits (u "Answer")) (Opt (Lit 115%N)))))
         (Alt (Seq (Lits (u "Open")) (Seq ws1 (Lits (u "Answer"))))
              (Lits (u "Numeric"))))))
      (Seq (Opt (Lit c_dot)) (Seq (Star true Space) (Seq (Star true AnyChar) Eol))).

(** [^(.+?)\s+(\d+)$] *)
Definition option : regex :=
  Seq (Group 1 (Plus false AnyChar))
      (Seq ws1 (Seq (Group 2 (Plus true Digit)) Eol)).
End question_patterns.

(** ** The tables on the Latin-1 range

    Used to run the model on concrete documents.  The whitespace table is
    the whole of [Py_UNICODE_ISSPACE]; digits and case mappings are those of
    code points below U+0100, with the three extra case-insensitive pairs
    that involve an ASCII letter (dotless i, long s, Kelvin sign).  Above
    that range the digit tables answer no, so the instance is that of the
    interpreter on documents whose digits are all below U+0100. *)
Module Latin1.
Definition in_range (lo hi x : N) : bool := ((lo <=? x) && (x <=? hi))%N.

Definition isspace (x : char) : bool :=
  in_range 9 13 x || in_range 28 32 x || (x =? 133)%N || (x =? 160)%N
  || (x =? 5760)%N || in_range 8192 8202 x || (x =? 8232)%N || (x =? 8233)%N
  || (x =? 8239)%N || (x =? 8287)%N || (x =? 12288)%N.

Definition isdecimal (x : char) : bool := in_range 48 57 x.

Definition isdigit_char (x : char) : bool :=
  in_range 48 57 x || (x =? 178)%N || (x =? 179)%N || (x =? 185)%N.

Definition lower_char (x : char) : char :=
  if in_range 65 90 x then (x + 32)%N
  else if in_range 192 222 x && negb (x =? 215)%N then (x + 32)%N
  else x.

Definition lower (s : str) : str := map lower_char s.

Definition fold_char (x : char) : char :=
  if (x =? 304)%N || (x =? 305)%N then 105%N        (* dotted I, dotless i *)
  else if (x =? 383)%N then 115%N                   (* long s *)
  else if (x =? 8490)%N then 107%N                  (* Kelvin sign *)
  else lower_char x.

Definition ignorecase_eq (c x : char) : bool := (fold_char c =? fold_char x)%N.

Definition tables : Unicode :=
  Build_Unicode isspace isdigit_char isdecimal lower ignorecase_eq.
End Latin1.

(** ** Data model *)

(** An option dict [{"option_code": ..., "option_text": ...}]. *)
Record SurveyOption : Type := mkOption {
  option_code : str;
  option_text : str
}.

(** A cell of a table grid as the document reader yields it. *)
Record Cell : Type := mkCell {
  row : nat;
  column : nat;
  text : str
}.

(** A table dict of the reader; [data] is the grid. *)
Record Table : Type := mkTable {
  table_index : nat;
  rows : nat;
  columns : nat;
  data : list (list Cell)
}.

(** A question dict.  [O] is what [question_options] holds: a reference
    into the store while the parser runs, a list of options once the
    records are written out. *)
Record Question (O : Type) : Type := mkQuestion {
  index : Z;
  answer_logic : str;
  question_id : str;
  question_text : str;
  question_type : str;
  question_options : O
}.

Arguments mkQuestion {O}.
Arguments index {O}.
Arguments answer_logic {O}.
Arguments question_id {O}.
Arguments question_text {O}.
Arguments question_type {O}.
Arguments question_options {O}.

Definition set_question_id {O} (q : Question O) (v : str) : Question O :=
  mkQuestion (index q) (answer_logic q) v (question_text q) (question_type q)
             (question_options q).

Definition set_question_text {O} (q : Question O) (v : str) : Question O :=
  mkQuestion (index q) (answer_logic q) (question_id q) v (question_type q)
             (question_options q).

Definition set_question_type {O} (q : Question O) (v : str) : Question O :=
  mkQuestion (index q) (answer_logic q) (question_id q) (question_text q) v
             (question_options q).

Definition set_question_options {O P} (q : Question O) (v : P) : Question P :=
  mkQuestion (index q) (answer_logic q) (question_id q) (question_text q)
             (question_type q) v.

(** *** Exceptions *)

Inductive exn : Type := IndexError | ExpatError.

Inductive result (A : Type) : Type :=
| Ok (a : A)
| Raise (e : exn).

Arguments Ok {A}.
Arguments Raise {A}.

Definition bind {A B} (m : result A) (f : A -> result B) : result B :=
  match m with
  | Ok a => f a
  | Raise e => Raise e
  end.

Notation "x <- m ;; k" := (bind m (fun x => k))
  (at level 61, m at next level, right associativity).

(** *** The list objects shared by questions and table options

    [table_options] is a list of list objects.  A question's
    [question_options] is either the list object created with the question
    (and reachable from it alone) or one of the list objects of
    [table_options]; appending to the latter is seen by every holder. *)
Inductive optref : Type :=
| Own (l : list SurveyOption)
| Tab (k : nat).

Definition store := list (list SurveyOption).

Definition deref (tabs : store) (r : optref) : list SurveyOption :=
  match r with
  | Own l => l
  | Tab k => nth k tabs []
  end.

Fixpoint append_at (k : nat) (o : SurveyOption) (tabs : store) : store :=
  match tabs, k with
  | [], _ => []
  | l :: tabs', O => (l ++ [o]) :: tabs'
  | l :: tabs', S k' => l :: append_at k' o tabs'
  end.

(** [question["question_options"].append(o)] *)
Definition append_option (r : optref) (o : SurveyOption) (tabs : store)
  : optref * store :=
  match r with
  | Own l => (Own (l ++ [o]), tabs)
  | Tab k => (Tab k, append_at k o tabs)
  end.

(** [l[i]] with Python's negative indices: the position read, or nothing
    where Python raises [IndexError]. *)
Definition py_index {A} (l : list A) (i : Z) : option nat :=
  let n := Z.of_nat (length l) in
  if (0 <=? i) && (i <? n) then Some (Z.to_nat i)
  else if (- n <=? i) && (i <? 0) then Some (Z.to_nat (n + i))
  else None.

(** [range(a, b)] and [range(a, -1, -1)] *)
Definition range (a b : Z) : list Z :=
  map (fun n => a + Z.of_nat n) (seq 0 (Z.to_nat (b - a))).

Definition range_down (a : Z) : list Z :=
  map (fun n => a - Z.of_nat n) (seq 0 (Z.to_nat (a + 1))).

(** ** Table-option extractor ([_extract_table_options]) *)

Section Extractor.
Context {U : Unicode}.

(** [row[i].get("text", "").strip()] for a position known to exist *)
Definition cell_text (r : list Cell) (i : nat) : str :=
  strip (text (nth i r (mkCell 0 0 []))).

(** One pass of the loop over [table["data"]]: [options] is the list built
    so far for this table. *)
Definition extract_row (options : list SurveyOption) (r : list Cell)
  : list SurveyOption :=
  if (4 <=? length r)%nat then
    let option_text1 := cell_text r 0 in
    let option_code1 := cell_text r 1 in
    let option_text2 := cell_text r 2 in
    let option_code2 := cell_text r 3 in
    let options :=
      if truthy option_text1 && truthy option_code1
      then options ++ [mkOption option_code1 option_text1] else options in
    if truthy option_text2 && truthy option_code2
    then options ++ [mkOption option_code2 option_text2] else options
  else if (2 <=? length r)%nat then
    let option_text := cell_text r 0 in
    let option_code := cell_text r 1 in
    if truthy option_text && truthy option_code
    then options ++ [mkOption option_code option_text] else options
  else if (1 <=? length r)%nat then
    let option_text := cell_text r 0 in
    if truthy option_text && negb (isdigit option_text)
    then
      let option_code := str_of_N (N.of_nat (length options + 1)) in
      options ++ [mkOption option_code option_text]
    else options
  else options.

Definition extract_table (t : Table) : list SurveyOption :=
  fold_left extract_row (data t) [].

Definition _extract_table_options (tables : list Table) : store :=
  fold_left
    (fun table_options table =>
       let options := extract_table table in
       if truthy options then table_options ++ [options] else table_options)
    tables [].
End Extractor.

(** ** Option assignment heuristic ([_assign_table_options]) *)

Section Assignment.
Context {U : Unicode}.

(** [question["question_options"] = table_options[k]] *)
Definition bind_table (question : Question optref) (k : nat) : Question optref :=
  set_question_options question (Tab k).

(** [for i, options in enumerate(table_options): if p(options): ...; break] *)
Fixpoint first_table (p : list SurveyOption -> bool) (i : nat) (tabs : store)
  : option nat :=
  match tabs with
  | [] => None
  | options :: tabs' => if p options then Some i else first_table p (S i) tabs'
  end.

(** [any(k in opt.get("option_text", "") for k in keys for opt in options)] *)
Definition any_text (keys : list str) (options : list SurveyOption) : bool :=
  existsb (fun opt => existsb (fun k => str_in k (option_text opt)) keys) options.

(** [for i in idxs: if table_options[i]: ...; break], with the index reads
    that Python performs; [None] when the loop ends without [break]. *)
Fixpoint first_nonempty (table_options : store) (idxs : list Z) : result (option nat) :=
  match idxs with
  | [] => Ok None
  | i :: idxs' =>
      match py_index table_options i with
      | None => Raise IndexError
      | Some k =>
          if truthy (nth k table_options []) then Ok (Some k)
          else first_nonempty table_options idxs'
      end
  end.

Definition _assign_table_options (question : Question optref) (table_options : store)
  : result (Question optref) :=
  let qt := question_text question in
  let len := Z.of_nat (length table_options) in
  if negb (truthy qt) then Ok question
  else
    let question_text := lower qt in
    if str_in (u "性别") qt then
      if 0 <? len then Ok (bind_table question 0) else Ok question
    else if str_in (u "年龄") qt then
      if 1 <? len then Ok (bind_table question 1) else Ok question
    else if str_in (u "居留身份") qt then
      if 2 <? len then Ok (bind_table question 2) else Ok question
    else if str_in (u "信用卡") qt && str_in (u "持有任何") qt then
      if 3 <? len then Ok (bind_table question 3) else Ok question
    else if str_in (u "职业") qt then
      if (index question =? 5) && (4 <? len) then Ok (bind_table question 4)
      else if (index question =? 6) && (5 <? len) then Ok (bind_table question 5)
      else Ok question
    else if str_in (u "年收入") qt then
      if 6 <? len then Ok (bind_table question 6) else Ok question
    else if str_in (u "银行") qt then
      if 0 <? len then Ok (bind_table question (length table_options - 1)) else Ok question
    else if str_in (u "信用卡") qt && str_in (u "持有哪些") qt then
      match first_table
              (fun options =>
                 truthy options
                 && any_text [u "信用卡"; u "Mastercard"; u "Visa"] options)
              0 table_options with
      | Some i => Ok (bind_table question i)
      | None => Ok question
      end
    else if str_in (u "mmpower") question_text || str_in (u "mastercard") question_text then
      if str_in (u "何时取得") qt || str_in (u "when") question_text then
        if 9 <? len then Ok (bind_table question 9) else Ok question
      else
        let table_index := index question - 2 in
        if (0 <=? table_index) && (table_index <? len)
        then Ok (bind_table question (Z.to_nat table_index))
        else Ok question
    else if str_in (u "消费") qt || str_in (u "开销") qt then
      match first_table
              (fun options =>
                 (truthy options && any_text [u "港币"; u "元"] options)
                 && negb (any_text [u "银行"; u "信用卡"] options))
              0 table_options with
      | Some i => Ok (bind_table question i)
      | None => Ok question
      end
    else
      let table_index := index question - 1 in
      if ((0 <=? table_index) && (table_index <? len))
         && truthy (nth (Z.to_nat table_index) table_options [])
      then Ok (bind_table question (Z.to_nat table_index))
      else
        found <- first_nonempty table_options (range (table_index + 1) len) ;;
        match found with
        | Some i => Ok (bind_table question i)
        | None =>
            found <- first_nonempty table_options (range_down (table_index - 1)) ;;
            match found with
            | Some i => Ok (bind_table question i)
            | None => Ok question
            end
        end.
End Assignment.

(** ** Question segmentation and type classification *)

Section Parser.
Context {U : Unicode}.

Definition _is_answer_logic (text : str) : bool :=
  match re_match true question_patterns.answer_logic text with
  | Some _ => true
  | None => false
  end.

Definition _is_question_type (text : str) : bool :=
  match re_match true question_patterns.question_type text with
  | Some _ => true
  | None => false
  end.

Definition _is_option (text : str) : bool :=
  match re_match false question_patterns.option text with
  | Some _ => true
  | None => false
  end.

Definition _parse_option (text : str) : option SurveyOption :=
  match re_match false question_patterns.option text with
  | Some m =>
      let option_text := strip (group 1 text m) in
      let option_code := strip (group 2 text m) in
      Some (mkOption option_code option_text)
  | None => None
  end.

Definition _clean_question_text (text : str) : str :=
  let lines := split c_newline text in
  let question_text := strip (nth 0 lines []) in
  if _is_question_type question_text then []
  else if _is_answer_logic question_text then []
  else question_text.

Definition _generate_question_id (question_num : str) : str :=
  let parts := split c_dot question_num in
  match parts with
  | [major; minor] => u "Q" ++ major ++ u "x" ++ minor
  | _ => u "Q" ++ question_num
  end.

Definition any_keyword (keys : list str) (s : str) : bool :=
  existsb (fun keyword => str_in keyword s) keys.

Definition _infer_question_type_from_content (question : Question optref)
    (table_options : store) : Question optref :=
  let question_text := lower (question_text question) in
  let options := deref table_options (question_options question) in
  if any_keyword [u "年龄"; u "收入"; u "金额"; u "数量"; u "百分比"; u "比例"]
                 question_text
  then set_question_type question (u "Numeric")
  else if any_keyword [u "选择所有"; u "多选"; u "哪些"; u "哪三个"; u "前三个"]
                      question_text
  then set_question_type question (u "Multiple Answers")
  else if (length options =? 2)%nat && any_text [u "男"; u "女"] options
  then set_question_type question (u "Single Answer")
  else if (2 <? length options)%nat
  then
    if forallb (fun opt => truthy (strip (option_text opt))) options
    then set_question_type question (u "Single Answer")
    else question
  else question.

(** The scan of the window around the first paragraph that contains the
    question text: the captured marker of the first paragraph that is one. *)
Fixpoint first_type_marker (window : list str) : option str :=
  match window with
  | [] => None
  | p :: window' =>
      let search_para := strip p in
      if truthy search_para && _is_question_type search_para then
        match re_match true question_patterns.question_type search_para with
        | Some type_match => Some (group 1 search_para type_match)
        | None => first_type_marker window'
        end
      else first_type_marker window'
  end.

(** [for i, para in enumerate(paragraphs): if question_text in para: ...; break] *)
Fixpoint first_containing (question_text : str) (i : nat) (paragraphs : list str)
  : option nat :=
  match paragraphs with
  | [] => None
  | para :: paragraphs' =>
      if str_in question_text para then Some i
      else first_containing question_text (S i) paragraphs'
  end.

Definition _find_question_type_comprehensive (question : Question optref)
    (paragraphs : list str) (table_options : store) : Question optref :=
  let question_text := question_text question in
  if negb (truthy question_text) then question
  else
    let found :=
      match first_containing question_text 0 paragraphs with
      | Some i =>
          let search_start := (i - 5)%nat in
          let search_end := Nat.min (length paragraphs) (i + 10) in
          first_type_marker
            (firstn (search_end - search_start) (skipn search_start paragraphs))
      | None => None
      end in
    match found with
    | Some t => set_question_type question t
    | None => _infer_question_type_from_content question table_options
    end.

(** *** The segmentation loop *)

(** The look-ahead for a type marker after the question text: at most two
    paragraphs, stopped by the first one recognized as a marker. *)
Fixpoint type_lookahead (question : Question optref) (window : list str)
  : Question optref :=
  match window with
  | [] => question
  | p :: window' =>
      let type_para := strip p in
      if truthy type_para && _is_question_type type_para then
        match re_match true question_patterns.question_type type_para with
        | Some type_match => set_question_type question (group 1 type_para type_match)
        | None => question
        end
      else type_lookahead question window'
  end.

(** The look-ahead for the question text, over [paragraphs[i+1:]]. *)
Fixpoint text_lookahead (question : Question optref) (table_options : store)
    (following : list str) : result (Question optref) :=
  match following with
  | [] => Ok question
  | p :: following' =>
      let next_para := strip p in
      if truthy next_para && negb (_is_answer_logic next_para) then
        question <-
          match re_match false question_patterns.question_number next_para with
          | Some m =>
              let question_num := group 1 next_para m in
              let question_text := strip (group 2 next_para m) in
              let question :=
                set_question_id question (_generate_question_id question_num) in
              let question := set_question_text question question_text in
              _assign_table_options question table_options
          | None =>
              let question_text := _clean_question_text next_para in
              if truthy question_text && negb (_is_question_type question_text) then
                let question := set_question_text question question_text in
                let question :=
                  set_question_id question (u "Q1x" ++ str_of_Z (index question)) in
                _assign_table_options question table_options
              else Ok question
          end ;;
        Ok (type_lookahead question (firstn 2 following'))
      else text_lookahead question table_options following'
  end.

(** The local variables of [_parse_questions] that the loop updates, and
    the store behind [table_options]. *)
Record locals : Type := mkLocals {
  questions : list (Question optref);
  current_question : option (Question optref);
  question_index : Z;
  table_options : store
}.

(** What the answer-logic branch does to an in-progress question before
    [questions.append(current_question)]. *)
Definition finalize_on_marker (paragraphs : list str) (tabs : store)
    (current : Question optref) : Question optref :=
  if negb (truthy (question_type current))
  then _find_question_type_comprehensive current paragraphs tabs
  else current.

(** What the code after the loop does to the last question before
    [questions.append(current_question)]. *)
Definition finalize_at_end (paragraphs : list str) (tabs : store)
    (current : Question optref) : result (Question optref) :=
  current <-
    (if negb (truthy (deref tabs (question_options current)))
     then _assign_table_options current tabs
     else Ok current) ;;
  Ok (if negb (truthy (question_type current))
      then _find_question_type_comprehensive current paragraphs tabs
      else current).

(** One pass of [while i < len(paragraphs)]: [p] is [paragraphs[i]] and
    [following] is [paragraphs[i+1:]]. *)
Definition loop_body (paragraphs : list str) (p : str) (following : list str)
    (st : locals) : result locals :=
  let para := strip p in
  let tabs := table_options st in
  if _is_answer_logic para then
    let questions :=
      match current_question st with
      | Some current => questions st ++ [finalize_on_marker paragraphs tabs current]
      | None => questions st
      end in
    let current :=
      mkQuestion (question_index st) para [] [] [] (Own []) in
    current <- text_lookahead current tabs following ;;
    Ok (mkLocals questions (Some current) (question_index st + 1) tabs)
  else
    match current_question st with
    | Some current =>
        if _is_question_type para then
          let current :=
            match re_match true question_patterns.question_type para with
            | Some m => set_question_type current (group 1 para m)
            | None => current
            end in
          if truthy (question_text current) then
            current <- _assign_table_options current tabs ;;
            let current :=
              if str_in (u "银行") (question_text current) && str_in (u "Multiple") para
              then
                if (0 <? length tabs)%nat
                then bind_table current (length tabs - 1)
                else current
              else current in
            Ok (mkLocals (questions st) (Some current) (question_index st) tabs)
          else Ok (mkLocals (questions st) (Some current) (question_index st) tabs)
        else if _is_option para then
          match _parse_option para with
          | Some o =>
              let (r, tabs) := append_option (question_options current) o tabs in
              Ok (mkLocals (questions st)
                           (Some (set_question_options current r))
                           (question_index st) tabs)
          | None => Ok st
          end
        else Ok st
    | None => Ok st
    end.

Fixpoint main_loop (paragraphs : list str) (remaining : list str) (st : locals)
  : result locals :=
  match remaining with
  | [] => Ok st
  | p :: following =>
      st <- loop_body paragraphs p following st ;;
      main_loop paragraphs following st
  end.

(** The list [questions] as returned, with the store its option lists
    live in. *)
Definition parse_questions_refs (paragraphs : list str) (tabs : store)
  : result (list (Question optref) * store) :=
  st <- main_loop paragraphs paragraphs (mkLocals [] None 1 tabs) ;;
  match current_question st with
  | Some current =>
      current <- finalize_at_end paragraphs (table_options st) current ;;
      Ok (questions st ++ [current], table_options st)
  | None => Ok (questions st, table_options st)
  end.

(** The value of a question once its option list is read. *)
Definition resolve (tabs : store) (q : Question optref) : Question (list SurveyOption) :=
  set_question_options q (deref tabs (question_options q)).

Definition _parse_questions (paragraphs : list str) (tabs : store)
  : result (list (Question (list SurveyOption))) :=
  out <- parse_questions_refs paragraphs tabs ;;
  Ok (map (resolve (snd out)) (fst out)).
End Parser.

(** ** XML emitter ([xml_generator.py]) *)

(** An [xml.etree.ElementTree.Element]: tag, attributes in insertion order,
    text (empty for [None]) and children. *)
#[warnings="-register-all"]
Inductive Element : Type :=
| mkElement (tag : str) (attrib : list (str * str)) (text : str)
            (children : list Element).

Definition element_tag (e : Element) : str :=
  match e with mkElement tag _ _ _ => tag end.
Definition element_attrib (e : Element) : list (str * str) :=
  match e with mkElement _ attrib _ _ => attrib end.
Definition element_text (e : Element) : str :=
  match e with mkElement _ _ text _ => text end.
Definition element_children (e : Element) : list Element :=
  match e with mkElement _ _ _ children => children end.

(** [processed_count], a dict with four fixed keys. *)
Record Counts : Type := mkCounts {
  count_single_answer : nat;
  count_multiple_answers : nat;
  count_numeric : nat;
  count_unknown : nat
}.

(** Text and attribute escaping of [ElementTree.tostring]
    ([_escape_cdata], [_escape_attrib]). *)
Definition _escape_cdata (text : str) : str :=
  replace c_gt (u "&gt;") (replace c_lt (u "&lt;") (replace c_amp (u "&amp;") text)).

Definition _escape_attrib (text : str) : str :=
  replace 9%N (u "&#09;")
    (replace 10%N (u "&#10;")
       (replace 13%N (u "&#13;")
          (replace c_quot (u "&quot;")
             (replace c_gt (u "&gt;")
                (replace c_lt (u "&lt;") (replace c_amp (u "&amp;") text)))))).

(** [ET.tostring(e, encoding='unicode')] *)
Fixpoint tostring (e : Element) : str :=
  match e with
  | mkElement tag attrib text children =>
      u "<" ++ tag
        ++ flat_map (fun kv => u " " ++ fst kv ++ u "=" ++ [c_quot]
                                 ++ _escape_attrib (snd kv) ++ [c_quot]) attrib
        ++ (if truthy text || truthy children
            then u ">" ++ _escape_cdata text ++ flat_map tostring children
                   ++ u "</" ++ tag ++ u ">"
            else u " />")
  end.

Definition join (sep : str) (l : list str) : str :=
  match l with
  | [] => []
  | x :: l' => x ++ flat_map (fun y => sep ++ y) l'
  end.

(** Stable sort by [index], as [questions.sort(key=...)]. *)
Fixpoint insert_by_index {O} (q : Question O) (l : list (Question O))
  : list (Question O) :=
  match l with
  | [] => [q]
  | x :: l' => if index q <=? index x then q :: l else x :: insert_by_index q l'
  end.

Definition sort_by_index {O} (l : list (Question O)) : list (Question O) :=
  fold_right insert_by_index [] l.

Section Emitter.
Context {U : Unicode}.

(** [minidom.parseString(xml_str).toprettyxml(indent="  ")]: the
    pretty-printer is an external collaborator. *)
Variable toprettyxml : str -> result str.

Definition escape_xml_text (text : str) : str :=
  if negb (truthy text) then []
  else
    let text := replace c_amp (u "&amp;") text in
    let text := replace c_lt (u "&lt;") text in
    let text := replace c_gt (u "&gt;") text in
    let text := replace c_quot (u "&quot;") text in
    let text := replace c_apos (u "&apos;") text in
    text.

Definition SubElement (tag : str) (text : str) : Element :=
  mkElement tag [] text [].

Definition generate_single_answer_xml (question : Question (list SurveyOption))
  : Element :=
  let title := SubElement (u "title") (escape_xml_text (question_text question)) in
  let comment := SubElement (u "comment") (u "${res.SCInst}") in
  let rows :=
    map (fun option =>
           let option_code := option_code option in
           mkElement (u "row")
                     [(u "label", u "r" ++ option_code); (u "value", option_code)]
                     (escape_xml_text (option_text option)) [])
        (question_options question) in
  mkElement (u "radio") [(u "label", question_id question)] []
            (title :: comment :: rows).

Definition generate_multiple_answers_xml (question : Question (list SurveyOption))
  : Element :=
  let title := SubElement (u "title") (escape_xml_text (question_text question)) in
  let comment := SubElement (u "comment") (u "${res.MRInst}") in
  let rows :=
    map (fun option =>
           let option_code := option_code option in
           mkElement (u "row") [(u "label", u "r" ++ option_code)]
                     (escape_xml_text (option_text option)) [])
        (question_options question) in
  mkElement (u "checkbox")
            [(u "label", question_id question); (u "atleast", u "1")] []
            (title :: comment :: rows).

Definition generate_numeric_xml (question : Question (list SurveyOption))
  : Element :=
  let title := SubElement (u "title") (escape_xml_text (question_text question)) in
  mkElement (u "number")
            [(u "label", question_id question); (u "optional", u "0");
             (u "size", u "20"); (u "verify", u "range(0,99)")] []
            [title].

(** One pass of [for question in questions]: [root] is the list of
    children of [self.root]. *)
Definition emit_question (st : list Element * Counts)
    (question : Question (list SurveyOption)) : list Element * Counts :=
  let (root, processed_count) := st in
  let question_type := question_type question in
  let suspend := mkElement (u "suspend") [] [] [] in
  if str_eqb question_type (u "Single Answer") then
    (root ++ [generate_single_answer_xml question; suspend],
     mkCounts (count_single_answer processed_count + 1)
              (count_multiple_answers processed_count)
              (count_numeric processed_count)
              (count_unknown processed_count))
  else if str_eqb question_type (u "Multiple Answers") then
    (root ++ [generate_multiple_answers_xml question; suspend],
     mkCounts (count_single_answer processed_count)
              (count_multiple_answers processed_count + 1)
              (count_numeric processed_count)
              (count_unknown processed_count))
  else if str_eqb question_type (u "Numeric") then
    (root ++ [generate_numeric_xml question; suspend],
     mkCounts (count_single_answer processed_count)
              (count_multiple_answers processed_count)
              (count_numeric processed_count + 1)
              (count_unknown processed_count))
  else
    (root,
     mkCounts (count_single_answer processed_count)
              (count_multiple_answers processed_count)
              (count_numeric processed_count)
              (count_unknown processed_count + 1)).

(** The sort and the loop of [generate_xml], from the children [root] that
    [self.root] already has. *)
Definition emit_questions (root : list Element)
    (questions : list (Question (list SurveyOption))) : list Element * Counts :=
  fold_left emit_question (sort_by_index questions) (root, mkCounts 0 0 0 0).

(** The string handed to the pretty-printer. *)
Definition xml_str (root : list Element) : str :=
  tostring (mkElement (u "survey") [] [] root).

(** [generate_xml]: the new children of [self.root], the statistics and
    the document written; [Raise] stands for the [except] branch, which
    writes nothing and returns [False]. *)
Definition generate_xml (root : list Element)
    (questions : list (Question (list SurveyOption)))
  : result (list Element * Counts * str) :=
  let (root, processed_count) := emit_questions root questions in
  pretty_xml <- toprettyxml (xml_str root) ;;
  let lines := filter (fun line => truthy (strip line)) (split c_newline pretty_xml) in
  let pretty_xml := join [c_newline] lines in
  Ok (root, processed_count, pretty_xml).
End Emitter.

(** ** Serialized records and the pipeline *)







(** [word_content["file_info"]] *)
Record FileInfo : Type := mkFileInfo {
  filename : str;
  file_path : str;
  file_size : Z;
  file_processed_time : str
}.

(** What [convert_to_json] returns for a document it could read: the
    paragraph texts in document order, the table dicts and the file info. *)
Record WordContent : Type := mkWordContent {
  file_info : FileInfo;
  content_paragraphs : list str;
  content_tables : list Table
}.

(** The dict built by [parse_survey_document]. *)
Record SurveyResult : Type := mkSurveyResult {
  result_file_info : FileInfo;
  total_questions : nat;
  processed_time : str;
  result_questions : list (Question (list SurveyOption))
}.








Section Pipeline.
Context {U : Unicode}.
Variable toprettyxml : str -> result str.

(** [parse_survey_document] on a document that was read; [now] is the
    value of [datetime.now().isoformat()].  [Raise] stands for the
    [except] branch, which returns an error dict. *)
Definition parse_survey_document (now : str) (word_content : WordContent)
  : result SurveyResult :=
  let paragraphs :=
    filter (fun text => truthy text)
           (map strip (content_paragraphs word_content)) in
  let table_options := _extract_table_options (content_tables word_content) in
  questions <- _parse_questions paragraphs table_options ;;
  Ok (mkSurveyResult (file_info word_content) (length questions) now questions).



End Pipeline.

(** ** Specification-side definitions

    Written from the words of the specification, to be compared with the
    definitions above. *)

Section Specification.
Context {U : Unicode}.

(** "append each pair only if both text and code are non-empty" *)
Definition pair_option (text code : str) : list SurveyOption :=
  if truthy text && truthy code then [mkOption code text] else [].

(** The row-shape policy of section 4.1 on the trimmed cell texts of one
    row; [count] is the number of options already collected for the
    table. *)
Definition row_policy (count : nat) (cells : list str) : list SurveyOption :=
  match cells with
  | c0 :: c1 :: c2 :: c3 :: _ => pair_option c0 c1 ++ pair_option c2 c3
  | c0 :: c1 :: _ => pair_option c0 c1
  | [c0] =>
      if truthy c0 && negb (isdigit c0)
      then [mkOption (str_of_N (N.of_nat (1 + count))) c0]
      else []
  | [] => []
  end.

Definition trimmed (r : list Cell) : list str := map (fun c => strip (text c)) r.

Definition table_policy (grid : list (list Cell)) : list SurveyOption :=
  fold_left (fun options r => options ++ row_policy (length options) (trimmed r))
            grid [].

(** Section 4.2 as worded: a new marker finalizes the in-progress question
    with the end-of-stream sequence.  The other transitions are those of
    [loop_body]. *)
Definition loop_body_spec (paragraphs : list str) (p : str) (following : list str)
    (st : locals) : result locals :=
  let para := strip p in
  let tabs := table_options st in
  if _is_answer_logic para then
    match current_question st with
    | Some current =>
        current <- finalize_at_end paragraphs tabs current ;;
        next <- text_lookahead (mkQuestion (question_index st) para [] [] [] (Own []))
                               tabs following ;;
        Ok (mkLocals (questions st ++ [current]) (Some next)
                     (question_index st + 1) tabs)
    | None => loop_body paragraphs p following st
    end
  else loop_body paragraphs p following st.

Fixpoint main_loop_spec (paragraphs : list str) (remaining : list str) (st : locals)
  : result locals :=
  match remaining with
  | [] => Ok st
  | p :: following =>
      st <- loop_body_spec paragraphs p following st ;;
      main_loop_spec paragraphs following st
  end.

Definition parse_questions_spec (paragraphs : list str) (tabs : store)
  : result (list (Question (list SurveyOption))) :=
  st <- main_loop_spec paragraphs paragraphs (mkLocals [] None 1 tabs) ;;
  match current_question st with
  | Some current =>
      current <- finalize_at_end paragraphs (table_options st) current ;;
      Ok (map (resolve (table_options st)) (questions st ++ [current]))
  | None => Ok (map (resolve (table_options st)) (questions st))
  end.

(** The five reserved markup characters and their entities. *)
Definition escape_char (c : char) : str :=
  if char_eqb c c_amp then u "&amp;"
  else if char_eqb c c_lt then u "&lt;"
  else if char_eqb c c_gt then u "&gt;"
  else if char_eqb c c_quot then u "&quot;"
  else if char_eqb c c_apos then u "&apos;"
  else [c].

(** A type the emitter has a schema for. *)
Definition known_type (question : Question (list SurveyOption)) : bool :=
  str_eqb (question_type question) (u "Single Answer")
  || str_eqb (question_type question) (u "Multiple Answers")
  || str_eqb (question_type question) (u "Numeric").
End Specification.

(** ** What a pattern accepts

    The strings a pattern can consume, without regard to the order in which
    [re_run] tries them, and the groups that every match sets. *)

Section Denotation.
Context {U : Unicode}.
Variable ignorecase : bool.

Fixpoint den (r : regex) (w : str) : Prop :=
match r with
| Eps => w = []
| Lit c => exists x, w = [x] /\ lit_match ignorecase c x = true
| Range lo hi => exists x, w = [x] /\ range_match ignorecase lo hi x = true
| Space => exists x, w = [x] /\ isspace x = true
| Digit => exists x, w = [x] /\ isdecimal x = true
| AnyChar => exists x, w = [x] /\ char_eqb x c_newline = false
| Eol => w = []
| Seq r1 r2 => exists w1 w2, w = w1 ++ w2 /\ den r1 w1 /\ den r2 w2
| Alt r1 r2 => den r1 w \/ den r2 w
| Star _ r1 => exists ws, w = concat ws /\ Forall (den r1) ws
| Group _ r1 => den r1 w
end.

(** [G n w] holds of every string that group [n] of the pattern can hold. *)
Fixpoint groups_sat (G : nat -> str -> Prop) (r : regex) : Prop :=
match r with
| Group n r1 => (forall w, den r1 w -> G n w) /\ groups_sat G r1
| Seq r1 r2 => groups_sat G r1 /\ groups_sat G r2
| Alt r1 r2 => groups_sat G r1 /\ groups_sat G r2
| Star _ r1 => groups_sat G r1
| _ => True
end.
End Denotation.

(** The groups outside any alternative or repetition. *)
Fixpoint must (r : regex) : list nat :=
match r with
| Group n r1 => n :: must r1
| Seq r1 r2 => must r1 ++ must r2
| _ => []
end.

(** [t[b:e]] *)
Definition slice (t : str) (b e : nat) : str := firstn (e - b) (skipn b t).

(** Every group set in [cs] holds a string that satisfies [G]. *)
Definition caps_valid (G : nat -> str -> Prop) (t : str) (cs : captures) : Prop :=
forall n b e, capture n cs = Some (b, e) -> G n (slice t b e).

(** The groups set in [cs] are set in [cs']. *)
Definition kept (cs cs' : captures) : Prop :=
forall n, capture n cs <> None -> capture n cs' <> None.

Section Repetition.
Context {U : Unicode}.
Variables (ignorecase greedy : bool) (r1 : regex).
Variable k : nat -> str -> captures -> option captures.

(** The loop that [re_run] runs for a repetition of [r1], by name. *)
Fixpoint star_iter (fuel : nat) (pos : nat) (s : str) (cs : captures)
  : option captures :=
match fuel with
| O => k pos s cs
| S fuel' =>
    let again :=
      re_run ignorecase r1 pos s cs
        (fun pos' s' cs' =>
           if (length s' <? length s)%nat then star_iter fuel' pos' s' cs' else None) in
    if greedy then
      match again with
      | Some res => Some res
      | None => k pos s cs
      end
    else
      match k pos s cs with
      | Some res => Some res
      | None => again
      end
end.
End Repetition.

(** What [re_run] on [r] guarantees when it succeeds on a tail [s] of the
    subject [t]: it consumed a string that [r] accepts, the continuation
    was entered after it, and the groups are set as [G] and [must] say. *)
Definition sound {U : Unicode} (ignorecase : bool) (G : nat -> str -> Prop) (t : str)
  (r : regex) : Prop :=
forall pre pos s cs (k : nat -> str -> captures -> option captures) res,
  groups_sat ignorecase G r ->
  t = pre ++ s -> length pre = pos ->
  caps_valid G t cs ->
  re_run ignorecase r pos s cs k = Some res ->
  exists w s' cs',
    s = w ++ s'
    /\ den ignorecase r w
    /\ caps_valid G t cs'
    /\ kept cs cs'
    /\ (forall n, In n (must r) -> capture n cs' <> None)
    /\ k (pos + length w)%nat s' cs' = Some res.

(** A non-empty run of decimal digits. *)
Definition digits {U : Unicode} (w : str) : Prop :=
w <> [] /\ Forall (fun c => isdecimal c = true) w.

(** An ASCII letter, as the class [[a-zA-Z]] without flags. *)
Definition ascii_letter (x : char) : Prop :=
(97 <= x <= 122)%N \/ (65 <= x <= 90)%N.

(** What the groups of the inline-option pattern hold. *)
Definition option_groups {U : Unicode} (n : nat) (w : str) : Prop :=
(n = 1%nat -> w <> [] /\ ~ In c_newline w) /\ (n = 2%nat -> digits w).

(** What the groups of the numbered-question pattern hold. *)
Definition number_groups {U : Unicode} (n : nat) (w : str) : Prop :=
(n = 1%nat ->
 exists major minor letter,
   w = major ++ c_dot :: minor ++ letter
   /\ digits major /\ digits minor
   /\ (letter = [] \/ exists x, letter = [x] /\ ascii_letter x))
/\ (n = 2%nat -> w <> [] /\ ~ In c_newline w).

(** ** The statistics of [SurveyConverter._print_statistics] *)

(** [d.get(k, 0)] on a dict kept as its items in insertion order *)
Fixpoint dict_get (d : list (str * nat)) (k : str) : nat :=
match d with
| [] => 0%nat
| (k', v) :: d' => if str_eqb k' k then v else dict_get d' k
end.

(** [d[k] = v]: an existing key keeps its place, a new key goes last *)
Fixpoint dict_set (d : list (str * nat)) (k : str) (v : nat) : list (str * nat) :=
match d with
| [] => [(k, v)]
| (k', v') :: d' => if str_eqb k' k then (k', v) :: d' else (k', v') :: dict_set d' k v
end.

(** The loop over [questions] that fills [type_counts]. *)
Definition type_counts {O} (questions : list (Question O)) : list (str * nat) :=
fold_left
  (fun type_counts q =>
     let q_type := question_type q in
     dict_set type_counts q_type (dict_get type_counts q_type + 1))
  questions [].

(** ** More definitions used in the statements *)

(** One of the five characters that [escape_xml_text] replaces. *)
Definition reserved (c : char) : bool :=
char_eqb c c_amp || char_eqb c c_lt || char_eqb c c_gt
|| char_eqb c c_quot || char_eqb c c_apos.

Section Rules.
Context {U : Unicode}.

(** The conditions of the keyword branches of [_assign_table_options], in
    their order: when none holds, the default fallback runs. *)
Definition keyword_rule (qt : str) : bool :=
str_in (u "性别") qt
|| str_in (u "年龄") qt
|| str_in (u "居留身份") qt
|| (str_in (u "信用卡") qt && str_in (u "持有任何") qt)
|| str_in (u "职业") qt
|| str_in (u "年收入") qt
|| str_in (u "银行") qt
|| (str_in (u "信用卡") qt && str_in (u "持有哪些") qt)
|| (str_in (u "mmpower") (lower qt) || str_in (u "mastercard") (lower qt))
|| (str_in (u "消费") qt || str_in (u "开销") qt).
End Rules.

(** An option with a code and a text. *)
Definition complete (o : SurveyOption) : Prop :=
truthy (option_code o) = true /\ truthy (option_text o) = true.

(** No list, or an empty one, at position [j] of the sequence. *)
Definition empty_at (tabs : store) (j : nat) : Prop := nth j tabs [] = [].

(** The last branch of [_assign_table_options], the positional fallback. *)
Definition default_fallback (question : Question optref) (table_options : store)
  : result (Question optref) :=
let len := Z.of_nat (length table_options) in
let table_index := index question - 1 in
if ((0 <=? table_index) && (table_index <? len))
   && truthy (nth (Z.to_nat table_index) table_options [])
then Ok (bind_table question (Z.to_nat table_index))
else
  found <- first_nonempty table_options (range (table_index + 1) len) ;;
  match found with
  | Some i => Ok (bind_table question i)
  | None =>
      found <- first_nonempty table_options (range_down (table_index - 1)) ;;
      match found with
      | Some i => Ok (bind_table question i)
      | None => Ok question
      end
  end.

(** A question without id and text, or with an id that begins with Q. *)
Definition labelled {O} (q : Question O) : Prop :=
(question_id q = [] /\ question_text q = [])
\/ starts_with (u "Q") (question_id q) = true.

(** The store [tabs'] has the lists of [tabs], each with options added at
    its end. *)
Definition extends (tabs tabs' : store) : Prop :=
length tabs' = length tabs
/\ forall k, exists added, nth k tabs' [] = nth k tabs [] ++ added.

(** The [answer_logic] of the question in progress. *)
Definition logic_of_current (st : locals) : list str :=
match current_question st with
| Some current => [answer_logic current]
| None => []
end.

(** Every question of the state is [labelled]. *)
Definition all_labelled (st : locals) : Prop :=
Forall labelled (questions st)
/\ forall current, current_question st = Some current -> labelled current.

(** The store has [n] lists, and the question in progress has an index the
    default fallback can serve. *)
Definition within (n : nat) (st : locals) : Prop :=
length (table_options st) = n
/\ 1 <= question_index st
/\ forall current, current_question st = Some current ->
                   1 <= index current <= Z.of_nat n + 1.

(** The records counted under one of the three schemas. *)
Definition known_total (c : Counts) : nat :=
(count_single_answer c + count_multiple_answers c + count_numeric c)%nat.

(** The sum of the values of a dict. *)
Definition dict_total (d : list (str * nat)) : nat :=
fold_right (fun kv n => (snd kv + n)%nat) 0%nat d.

(** The fields of a question that are fixed once its text is located. *)
Definition core {O} (q : Question O) : Z * str * str * str :=
(index q, answer_logic q, question_id q, question_text q).

(** ** Definitions used in the statements and proofs *)

(** The result of a computation that did not raise, mapped. *)
Definition fmap {A B} (f : A -> B) (m : result A) : result B :=
match m with
| Ok a => Ok (f a)
| Raise e => Raise e
end.

(** Ascending [index], the order in which the emitter works. *)
Fixpoint sorted {O} (l : list (Question O)) : Prop :=
match l with
| [] => True
| x :: l' => Forall (fun y => index x <= index y) l' /\ sorted l'
end.

(** Two statistics agree on the three schemas. *)
Definition same_known_counts (c c' : Counts) : Prop :=
count_single_answer c = count_single_answer c'
/\ count_multiple_answers c = count_multiple_answers c'
/\ count_numeric c = count_numeric c'.

(** A pretty-printer that returns its input, for running the emitter. *)
Definition as_is (xml : str) : result str := Ok xml.


Section Invariants.
Context {U : Unicode}.

Definition current_index (st : locals) : list Z :=
match current_question st with
| Some current => [index current]
| None => []
end.

(** The indices handed out so far: those of the appended questions followed
    by that of the question in progress. *)
Definition indices_so_far (st : locals) : list Z :=
map index (questions st) ++ current_index st.

Definition numbered (st : locals) (n : nat) : Prop :=
question_index st = Z.of_nat n + 1
/\ indices_so_far st = map Z.of_nat (seq 1 n).

Definition is_marker (p : str) : bool := _is_answer_logic (strip p).

Definition nonempty_lists (tabs : store) : Prop :=
Forall (fun options => truthy options = true) tabs.

(** A reference that names a list object of the store. *)
Definition valid_ref (tabs : store) (r : optref) : Prop :=
match r with
| Own _ => True
| Tab k => (k < length tabs)%nat
end.

(** Binding again would change nothing: a question whose option list is
    still empty gets no list from the assignment. *)
Definition settled (tabs : store) (question : Question optref) : Prop :=
valid_ref tabs (question_options question)
/\ (truthy (deref tabs (question_options question)) = false ->
    _assign_table_options question tabs = Ok question).

Definition settled_state (st : locals) : Prop :=
nonempty_lists (table_options st)
/\ forall current, current_question st = Some current ->
                   settled (table_options st) current.

(** What the pass of the loop over paragraph [p] appends to list [k] of
    the store: the option parsed from [p], when [p] reaches the inline
    option branch while the question in progress holds list [k]. *)
Definition appended_by (k : nat) (st : locals) (p : str) : list SurveyOption :=
let para := strip p in
match current_question st with
| Some current =>
    if _is_answer_logic para || _is_question_type para then []
    else
      match question_options current, _parse_option para with
      | Tab j, Some o => if (j =? k)%nat then [o] else []
      | _, _ => []
      end
| None => []
end.

(** The options appended to list [k] over the passes that remain, in
    paragraph order; each pass is taken from the state the loop has
    reached. *)
Fixpoint appended (k : nat) (paragraphs remaining : list str) (st : locals)
  : list SurveyOption :=
match remaining with
| [] => []
| p :: following =>
    appended_by k st p
    ++ match loop_body paragraphs p following st with
       | Ok st' => appended k paragraphs following st'
       | Raise _ => []
       end
end.
End Invariants.

Ltac split_conditions :=
repeat match goal with
       | |- context [if ?c then _ else _] => destruct c eqn:?
       | |- context [match ?c with Some _ => _ | None => _ end] => destruct c eqn:?
       | |- context [bind ?m _] => destruct m eqn:?; cbn [bind]
       end.

Ltac to_props :=
repeat match goal with
       | H : (_ && _) = true |- _ => apply andb_true_iff in H; destruct H
       | H : (_ <? _) = true |- _ => apply Z.ltb_lt in H
       | H : (_ <=? _) = true |- _ => apply Z.leb_le in H
       | H : (_ <? _)%nat = true |- _ => apply Nat.ltb_lt in H
       end.

(** ** Theorems *)

(** *** Option assignment on a question without text *)

Section AssignmentFacts.
Context {U : Unicode}.

Lemma assign_no_text (question : Question optref) (table_options : store) :
question_text question = [] ->
_assign_table_options question table_options = Ok question.
Proof.
intros Htext. unfold _assign_table_options. rewrite Htext. reflexivity.
Qed.

(** C10: a question whose [question_text] is empty comes back from the
    option assignment heuristic unchanged in every field, whatever the
    option lists and the question index are. *)
Theorem assign_table_options_empty_text :
forall (question : Question optref) (table_options : store),
  question_text question = [] ->
  _assign_table_options question table_options = Ok question.
Proof.
intros question table_options Htext. apply assign_no_text. exact Htext.
Qed.
End AssignmentFacts.

Lemma assign_table_options_empty_text_witness :
  let question := mkQuestion 7 (u "ASK ALL") [] [] (u "Numeric") (Tab 1) in
  let table_options := [[mkOption (u "1") (u "Male")]; []] in
  question_text question = []
  /\ @_assign_table_options Latin1.tables question table_options = Ok question.
Proof.
  split.
  - reflexivity.
  - apply (@assign_table_options_empty_text Latin1.tables). reflexivity.
Defined.

(** *** The numbering-to-id rule *)

Lemma split_no_sep (c : char) (s : str) :
  ~ In c s -> split c s = [s].
Proof.
  induction s as [|x s IH]; intros Hnot; simpl.
  - reflexivity.
  - destruct (char_eqb x c) eqn:E.
    + apply N.eqb_eq in E. exfalso. apply Hnot. left. exact E.
    + rewrite IH; [reflexivity|]. intros Hin. apply Hnot. right. exact Hin.
Qed.

Lemma split_at_sep (c : char) (a b : str) :
  ~ In c a -> split c (a ++ c :: b) = a :: split c b.
Proof.
  induction a as [|x a IH]; intros Hnot; simpl.
  - unfold char_eqb. rewrite N.eqb_refl. reflexivity.
  - destruct (char_eqb x c) eqn:E.
    + apply N.eqb_eq in E. exfalso. apply Hnot. left. exact E.
    + rewrite IH; [reflexivity|]. intros Hin. apply Hnot. right. exact Hin.
Qed.

(** C7: a numbering string that splits on the dot into exactly two parts
    gets the id Q<major>x<minor>, any other shape gets Q<numbering>; a
    string A.B with no dot inside A or B is of the first kind. *)
Theorem generate_question_id_rule :
  forall num : str,
    (forall major minor,
        split c_dot num = [major; minor] ->
        _generate_question_id num = u "Q" ++ major ++ u "x" ++ minor)
    /\ (length (split c_dot num) <> 2%nat ->
        _generate_question_id num = u "Q" ++ num)
    /\ (forall major minor,
           num = major ++ c_dot :: minor ->
           ~ In c_dot major -> ~ In c_dot minor ->
           _generate_question_id num = u "Q" ++ major ++ u "x" ++ minor).
Proof.
  intros num. unfold _generate_question_id. repeat split.
  - intros major minor Hs. rewrite Hs. reflexivity.
  - intros Hlen. destruct (split c_dot num) as [|a [|b [|c l]]]; try reflexivity.
    exfalso. apply Hlen. reflexivity.
  - intros major minor Hnum Hmaj Hmin. subst num.
    rewrite split_at_sep by exact Hmaj.
    rewrite split_no_sep by exact Hmin.
    reflexivity.
Qed.

Lemma generate_question_id_rule_witness :
  _generate_question_id (u "1.4a") = u "Q1x4a"
  /\ _generate_question_id (u "7") = u "Q7".
Proof.
  destruct (generate_question_id_rule (u "1.4a")) as [_ [_ H3]].
  destruct (generate_question_id_rule (u "7")) as [_ [H2 _]].
  split.
  - apply (H3 (u "1") (u "4a")).
    + reflexivity.
    + vm_compute. intros [H|H]; [discriminate H | exact H].
    + vm_compute. intros [H|[H|H]]; [discriminate H | discriminate H | exact H].
  - apply H2. vm_compute. discriminate.
Defined.

(** *** The table-option extractor *)

Section ExtractorFacts.
Context {U : Unicode}.

Lemma extract_row_policy (options : list SurveyOption) (r : list Cell) :
  extract_row options r = options ++ row_policy (length options) (trimmed r).
Proof.
  unfold extract_row, cell_text, trimmed.
  destruct r as [|c0 [|c1 [|c2 [|c3 r]]]]; simpl; unfold pair_option.
  - symmetry. apply app_nil_r.
  - destruct (truthy (strip (text c0)) && negb (isdigit (strip (text c0)))).
    + rewrite Nat.add_comm. reflexivity.
    + symmetry. apply app_nil_r.
  - destruct (truthy (strip (text c0)) && truthy (strip (text c1)));
      [reflexivity | symmetry; apply app_nil_r].
  - destruct (truthy (strip (text c0)) && truthy (strip (text c1)));
      [reflexivity | symmetry; apply app_nil_r].
  - destruct (truthy (strip (text c0)) && truthy (strip (text c1)));
      destruct (truthy (strip (text c2)) && truthy (strip (text c3)));
      simpl; rewrite <- ?app_assoc, ?app_nil_r; reflexivity.
Qed.

Lemma extract_table_policy (t : Table) :
  extract_table t = table_policy (data t).
Proof.
  unfold extract_table, table_policy.
  generalize (@nil SurveyOption).
  induction (data t) as [|r grid IH]; intros acc; simpl.
  - reflexivity.
  - rewrite extract_row_policy. apply IH.
Qed.

Lemma extract_tables_from (tables : list Table) (acc : store) :
  fold_left
    (fun table_options table =>
       let options := extract_table table in
       if truthy options then table_options ++ [options] else table_options)
    tables acc
  = acc ++ filter (@truthy SurveyOption) (map (fun t => table_policy (data t)) tables).
Proof.
  revert acc. induction tables as [|t tables IH]; intros acc; simpl.
  - symmetry. apply app_nil_r.
  - rewrite IH, extract_table_policy.
    destruct (truthy (table_policy (data t))).
    + rewrite <- app_assoc. reflexivity.
    + reflexivity.
Qed.

Lemma extract_table_options_filter (tables : list Table) :
  _extract_table_options tables
  = filter (@truthy SurveyOption) (map (fun t => table_policy (data t)) tables).
Proof.
  unfold _extract_table_options. apply (extract_tables_from tables []).
Qed.

Lemma extracted_tables_nonempty (tables : list Table) :
  Forall (fun options => truthy options = true) (_extract_table_options tables).
Proof.
  rewrite extract_table_options_filter. apply Forall_forall. intros options Hin.
  apply filter_In in Hin. apply Hin.
Qed.

(** C2: the extractor applies to every row the first matching shape rule
    of [row_policy] (four or more cells: two pairs; two or three cells:
    one pair; one cell: a label whose code is one more than the number of
    options collected so far for the table), each pair kept only when
    both its text and its code are non-empty, and a table is in the output,
    in document order, exactly when it contributed an option. *)
Theorem extract_table_options_policy :
  forall tables : list Table,
    _extract_table_options tables
    = filter (@truthy SurveyOption) (map (fun t => table_policy (data t)) tables)
    /\ (forall t options r,
           extract_row options r = options ++ row_policy (length options) (trimmed r)
           /\ extract_table t = table_policy (data t))
    /\ Forall (fun options => options <> []) (_extract_table_options tables).
Proof.
  intros tables. split; [apply extract_table_options_filter|]. split.
  - intros t options r. split; [apply extract_row_policy | apply extract_table_policy].
  - eapply Forall_impl; [|apply extracted_tables_nonempty].
    intros options Ht. destruct options; [discriminate Ht | discriminate].
Qed.
End ExtractorFacts.

(** *** The stable sort by index *)

Section SortFacts.
Context {O : Type}.
Implicit Types (q : Question O) (l : list (Question O)).

Lemma insert_head q l :
  Forall (fun y => index q <= index y) l -> insert_by_index q l = q :: l.
Proof.
  intros H. destruct l as [|x l]; simpl; [reflexivity|].
  inversion H as [|? ? Hx _]; subst.
  apply Z.leb_le in Hx. rewrite Hx. reflexivity.
Qed.

Lemma insert_Forall (P : Question O -> Prop) q l :
  P q -> Forall P l -> Forall P (insert_by_index q l).
Proof.
  intros Hq Hl. induction Hl as [|x l Hx Hl IH]; simpl.
  - constructor; [exact Hq | constructor].
  - destruct (index q <=? index x).
    + constructor; [exact Hq|]. constructor; assumption.
    + constructor; assumption.
Qed.

Lemma insert_sorted q l : sorted l -> sorted (insert_by_index q l).
Proof.
  induction l as [|x l IH]; simpl; intros Hs.
  - split; constructor.
  - destruct Hs as [Hx Hs].
    destruct (index q <=? index x) eqn:E.
    + simpl. split; [|split; assumption].
      apply Z.leb_le in E. constructor; [exact E|].
      eapply Forall_impl; [|exact Hx]. simpl. intros y Hy. lia.
    + simpl. split; [|apply IH; exact Hs].
      apply insert_Forall; [|exact Hx].
      apply Z.leb_gt in E. lia.
Qed.

Lemma sort_sorted l : sorted (sort_by_index l).
Proof.
  induction l as [|q l IH]; simpl; [exact I|].
  apply insert_sorted. exact IH.
Qed.

Lemma filter_insert (p : Question O -> bool) q l :
  sorted l ->
  filter p (insert_by_index q l)
  = if p q then insert_by_index q (filter p l) else filter p l.
Proof.
  induction l as [|x l IH]; intros Hs.
  - simpl. destruct (p q); reflexivity.
  - destruct Hs as [Hx Hs]. simpl insert_by_index.
    destruct (index q <=? index x) eqn:E.
    + change (filter p (q :: x :: l))
        with (if p q then q :: filter p (x :: l) else filter p (x :: l)).
      destruct (p q); [|reflexivity].
      symmetry. apply insert_head.
      apply Z.leb_le in E.
      apply Forall_forall. intros y Hy. apply filter_In in Hy. destruct Hy as [Hy _].
      destruct Hy as [Hy|Hy]; [subst; exact E|].
      rewrite Forall_forall in Hx. specialize (Hx y Hy). simpl in Hx. lia.
    + simpl. rewrite (IH Hs).
      destruct (p x); destruct (p q); simpl; rewrite ?E; reflexivity.
Qed.

Lemma filter_sort (p : Question O -> bool) l :
  filter p (sort_by_index l) = sort_by_index (filter p l).
Proof.
  induction l as [|q l IH]; simpl; [reflexivity|].
  rewrite filter_insert by apply sort_sorted.
  rewrite IH. destruct (p q); reflexivity.
Qed.
End SortFacts.

(** *** The emitter and records of unknown type *)

Section EmitterFacts.
Context {U : Unicode}.
Implicit Types (question : Question (list SurveyOption)).

Lemma emit_question_unknown root c question :
  known_type question = false ->
  emit_question (root, c) question
  = (root, mkCounts (count_single_answer c) (count_multiple_answers c)
                    (count_numeric c) (count_unknown c + 1)).
Proof.
  unfold known_type, emit_question. intros H.
  apply orb_false_elim in H. destruct H as [H H3].
  apply orb_false_elim in H. destruct H as [H1 H2].
  rewrite H1, H2, H3. reflexivity.
Qed.

Lemma emit_question_known root c question :
  known_type question = true ->
  count_unknown (snd (emit_question (root, c) question)) = count_unknown c.
Proof.
  unfold known_type, emit_question. intros H.
  destruct (str_eqb (question_type question) (u "Single Answer")); [reflexivity|].
  destruct (str_eqb (question_type question) (u "Multiple Answers")); [reflexivity|].
  destruct (str_eqb (question_type question) (u "Numeric")); [reflexivity|].
  discriminate H.
Qed.

(** The elements appended do not depend on the statistics, and the
    statistics do not depend on the elements. *)
Lemma emit_question_frame root root' c c' question :
  exists els dc,
    emit_question (root, c) question
    = (root ++ els,
       mkCounts (count_single_answer c + count_single_answer dc)
                (count_multiple_answers c + count_multiple_answers dc)
                (count_numeric c + count_numeric dc)
                (count_unknown c + count_unknown dc))
    /\ emit_question (root', c') question
       = (root' ++ els,
          mkCounts (count_single_answer c' + count_single_answer dc)
                   (count_multiple_answers c' + count_multiple_answers dc)
                   (count_numeric c' + count_numeric dc)
                   (count_unknown c' + count_unknown dc)).
Proof.
  unfold emit_question.
  destruct (str_eqb (question_type question) (u "Single Answer")).
  { eexists _, (mkCounts 1 0 0 0). simpl. rewrite !Nat.add_0_r. split; reflexivity. }
  destruct (str_eqb (question_type question) (u "Multiple Answers")).
  { eexists _, (mkCounts 0 1 0 0). simpl. rewrite !Nat.add_0_r. split; reflexivity. }
  destruct (str_eqb (question_type question) (u "Numeric")).
  { eexists _, (mkCounts 0 0 1 0). simpl. rewrite !Nat.add_0_r. split; reflexivity. }
  exists [], (mkCounts 0 0 0 1). simpl. rewrite !Nat.add_0_r, !app_nil_r.
  split; reflexivity.
Qed.

Lemma emit_loop_skips (l : list (Question (list SurveyOption))) :
  forall root c c',
    same_known_counts c c' ->
    fst (fold_left emit_question l (root, c))
    = fst (fold_left emit_question (filter known_type l) (root, c'))
    /\ same_known_counts (snd (fold_left emit_question l (root, c)))
                         (snd (fold_left emit_question (filter known_type l) (root, c')))
    /\ count_unknown (snd (fold_left emit_question l (root, c)))
       = (count_unknown c
          + length (filter (fun question => negb (known_type question)) l))%nat
    /\ count_unknown (snd (fold_left emit_question (filter known_type l) (root, c')))
       = count_unknown c'.
Proof.
  induction l as [|question l IH]; intros root c c' Hc.
  - simpl. rewrite Nat.add_0_r. repeat split; try apply Hc.
  - cbn [fold_left].
    change (filter known_type (question :: l))
      with (if known_type question
            then question :: filter known_type l else filter known_type l).
    change (filter (fun question => negb (known_type question)) (question :: l))
      with (if negb (known_type question)
            then question :: filter (fun question => negb (known_type question)) l
            else filter (fun question => negb (known_type question)) l).
    destruct (known_type question) eqn:K; cbn [negb fold_left length].
    + destruct (emit_question_frame root root c c' question)
        as (els & dc & E1 & E2).
      pose proof (emit_question_known root c question K) as U1.
      pose proof (emit_question_known root c' question K) as U2.
      rewrite E1 in U1. rewrite E2 in U2. simpl in U1, U2.
      rewrite E1, E2.
      match goal with
      | |- context [fold_left emit_question l (?r, ?a)] =>
          match goal with
          | |- context [fold_left emit_question (filter known_type l) (r, ?b)] =>
              destruct (IH r a b) as (I1 & I2 & I3 & I4)
          end
      end.
      { destruct Hc as (H1 & H2 & H3). repeat split; simpl; congruence. }
      split; [exact I1|]. split; [exact I2|]. split.
      * rewrite I3. simpl. lia.
      * rewrite I4. simpl. lia.
    + rewrite (emit_question_unknown root c question K).
      match goal with
      | |- context [fold_left emit_question l (?r, ?a)] =>
          destruct (IH r a c') as (I1 & I2 & I3 & I4)
      end.
      { destruct Hc as (H1 & H2 & H3). repeat split; simpl; assumption. }
      split; [exact I1|]. split; [exact I2|]. split; [|exact I4].
      rewrite I3. simpl. lia.
Qed.

Lemma length_filter_insert (p : Question (list SurveyOption) -> bool) question l :
  length (filter p (insert_by_index question l)) = length (filter p (question :: l)).
Proof.
  induction l as [|x l IH]; simpl; [reflexivity|].
  destruct (index question <=? index x); simpl; [reflexivity|].
  simpl in IH. destruct (p x); destruct (p question); simpl in *; lia.
Qed.

Lemma length_filter_sort (p : Question (list SurveyOption) -> bool) l :
  length (filter p (sort_by_index l)) = length (filter p l).
Proof.
  induction l as [|question l IH]; simpl; [reflexivity|].
  rewrite length_filter_insert. simpl. destruct (p question); simpl; lia.
Qed.

(** C8: the records whose type is none of the three the emitter has a
    schema for (empty or unrecognized) leave no element in the document:
    the elements are those of the run on the remaining records, the
    statistics of the three schemas are unchanged, the Unknown counter is
    the number of such records, and the loop is total (no exception). *)
Theorem unknown_type_is_skipped :
  forall (root : list Element) (questions : list (Question (list SurveyOption))),
    fst (emit_questions root questions)
    = fst (emit_questions root (filter known_type questions))
    /\ same_known_counts (snd (emit_questions root questions))
                         (snd (emit_questions root (filter known_type questions)))
    /\ count_unknown (snd (emit_questions root questions))
       = length (filter (fun question => negb (known_type question)) questions)
    /\ count_unknown (snd (emit_questions root (filter known_type questions))) = 0%nat.
Proof.
  intros root questions. unfold emit_questions.
  rewrite <- (filter_sort known_type questions).
  destruct (@emit_loop_skips (sort_by_index questions) root
              (mkCounts 0 0 0 0) (mkCounts 0 0 0 0)) as (I1 & I2 & I3 & I4).
  { repeat split. }
  split; [exact I1|]. split; [exact I2|]. split; [|exact I4].
  rewrite I3. simpl. apply length_filter_sort.
Qed.
End EmitterFacts.


(** *** What the option assignment can change *)

Lemma py_index_bound {A} (l : list A) (i : Z) (k : nat) :
py_index l i = Some k -> (k < length l)%nat.
Proof.
unfold py_index. intros H.
destruct ((0 <=? i) && (i <? Z.of_nat (length l))) eqn:E1.
- inversion H; subst. to_props. lia.
- destruct ((- Z.of_nat (length l) <=? i) && (i <? 0)) eqn:E2; [|discriminate H].
  inversion H; subst. to_props. lia.
Qed.

Lemma first_table_bound (p : list SurveyOption -> bool) (tabs : store) :
forall i k, first_table p i tabs = Some k -> (i <= k < i + length tabs)%nat.
Proof.
induction tabs as [|options tabs IH]; intros i k H; simpl in H.
- discriminate H.
- destruct (p options).
  + inversion H; subst. simpl. lia.
  + apply IH in H. simpl. lia.
Qed.

Lemma first_nonempty_bound (tabs : store) (idxs : list Z) (k : nat) :
first_nonempty tabs idxs = Ok (Some k) ->
(k < length tabs)%nat /\ truthy (nth k tabs []) = true.
Proof.
induction idxs as [|i idxs IH]; simpl; intros H.
- discriminate H.
- destruct (py_index tabs i) as [j|] eqn:E; [|discriminate H].
  destruct (truthy (nth j tabs [])) eqn:T.
  + inversion H; subst. split; [eapply py_index_bound; exact E | exact T].
  + apply IH. exact H.
Qed.

Section AssignmentShape.
Context {U : Unicode}.

Lemma assign_cases (question question' : Question optref) (tabs : store) :
_assign_table_options question tabs = Ok question' ->
question' = question
\/ exists k, question' = bind_table question k /\ (k < length tabs)%nat.
Proof.
unfold _assign_table_options. intros H.
revert H. split_conditions; intros H; inversion H; subst;
  try (left; reflexivity); right; eexists; (split; [reflexivity|]); to_props;
  try lia;
  try (match goal with
       | E : first_table _ _ _ = Some _ |- _ => apply first_table_bound in E; lia
       | E : first_nonempty _ _ = Ok (Some _) |- _ =>
           apply first_nonempty_bound in E; apply E
       end).
Qed.

Lemma assign_set_type (question : Question optref) (t : str) (tabs : store) :
_assign_table_options (set_question_type question t) tabs
= fmap (fun q => set_question_type q t) (_assign_table_options question tabs).
Proof.
unfold _assign_table_options. cbn [set_question_type question_text index].
split_conditions; reflexivity.
Qed.
End AssignmentShape.

(** *** Question indices *)

Section IndexFacts.
Context {U : Unicode}.
Implicit Types (question current : Question optref) (tabs : store).

Lemma assign_index question question' tabs :
_assign_table_options question tabs = Ok question' -> index question' = index question.
Proof.
intros H. apply assign_cases in H. destruct H as [->|[k [-> _]]]; reflexivity.
Qed.

Lemma set_own_type {O} (q : Question O) : set_question_type q (question_type q) = q.
Proof. destruct q; reflexivity. Qed.

(** Type inference writes [question_type] and nothing else. *)
Lemma infer_type_only question tabs :
exists t, _infer_question_type_from_content question tabs = set_question_type question t.
Proof.
unfold _infer_question_type_from_content.
split_conditions; eauto; exists (question_type question); symmetry; apply set_own_type.
Qed.

Lemma find_type_only question paragraphs tabs :
exists t, _find_question_type_comprehensive question paragraphs tabs
          = set_question_type question t.
Proof.
unfold _find_question_type_comprehensive.
destruct (negb (truthy (question_text question))).
- exists (question_type question). symmetry. apply set_own_type.
- match goal with
  | |- context [match ?found with Some _ => _ | None => _ end] => destruct found
  end; [eauto | apply infer_type_only].
Qed.

Lemma finalize_on_marker_type_only paragraphs tabs current :
exists t, finalize_on_marker paragraphs tabs current = set_question_type current t.
Proof.
unfold finalize_on_marker.
destruct (negb (truthy (question_type current))).
- apply find_type_only.
- exists (question_type current). symmetry. apply set_own_type.
Qed.

Lemma type_lookahead_type_only question window :
exists t, type_lookahead question window = set_question_type question t.
Proof.
induction window as [|p window IH]; simpl.
- exists (question_type question). symmetry. apply set_own_type.
- split_conditions; eauto.
  exists (question_type question). symmetry. apply set_own_type.
Qed.

Lemma text_lookahead_index question tabs following :
forall question',
  text_lookahead question tabs following = Ok question' ->
  index question' = index question.
Proof.
induction following as [|p following IH]; cbn [text_lookahead]; intros question' H.
- injection H as <-. reflexivity.
- destruct (truthy (strip p) && negb (_is_answer_logic (strip p))); [|apply IH; exact H].
  match type of H with
  | bind ?m _ = _ => destruct m as [q1|] eqn:E; cbn [bind] in H; [|discriminate H]
  end.
  injection H as <-.
  match goal with
  | |- context [type_lookahead q1 ?w] =>
      destruct (type_lookahead_type_only q1 w) as [t ->]
  end.
  cbn [set_question_type index].
  revert E. split_conditions; intros E;
    first [apply assign_index in E; exact E | injection E as <-; reflexivity].
Qed.

Lemma finalize_at_end_index paragraphs tabs current current' :
finalize_at_end paragraphs tabs current = Ok current' -> index current' = index current.
Proof.
unfold finalize_at_end. intros H.
match type of H with
| bind ?m _ = _ => destruct m as [q1|] eqn:E; cbn [bind] in H; [|discriminate H]
end.
inversion H; subst.
assert (E1 : index q1 = index current).
{ revert E. split_conditions; intros E;
    [apply assign_index in E; exact E | inversion E; reflexivity]. }
rewrite <- E1.
destruct (negb (truthy (question_type q1))); [|reflexivity].
destruct (find_type_only q1 paragraphs tabs) as [t ->]. reflexivity.
Qed.

Lemma loop_body_numbered paragraphs p following st st' n :
numbered st n ->
loop_body paragraphs p following st = Ok st' ->
numbered st' (if is_marker p then S n else n).
Proof.
unfold numbered, indices_so_far, current_index, is_marker, loop_body.
intros [Hq Hi] H.
destruct (_is_answer_logic (strip p)).
- match type of H with
  | bind ?m _ = _ => destruct m as [q1|] eqn:E; cbn [bind] in H; [|discriminate H]
  end.
  inversion H; subst; clear H. cbn [question_index questions current_question].
  apply text_lookahead_index in E. cbn [index] in E. rewrite E.
  split; [lia|].
  rewrite seq_S, map_app. cbn [map].
  replace (Z.of_nat (1 + n)) with (question_index st) by lia.
  rewrite <- Hi. f_equal.
  destruct (current_question st) as [current|].
  + rewrite map_app. cbn [map].
    destruct (finalize_on_marker_type_only paragraphs (table_options st) current)
      as [t ->].
    reflexivity.
  + symmetry. apply app_nil_r.
- destruct (current_question st) as [current|] eqn:C.
  + destruct (_is_question_type (strip p)).
    * assert (Hset : forall m : option captures,
                 index (match m with
                        | Some m => set_question_type current (group 1 (strip p) m)
                        | None => current
                        end) = index current).
      { intros [m|]; reflexivity. }
      revert H.
      match goal with
      | |- context [re_match true question_patterns.question_type (strip p)] =>
          generalize (Hset (re_match true question_patterns.question_type (strip p)));
          generalize (match re_match true question_patterns.question_type (strip p) with
                      | Some m => set_question_type current (group 1 (strip p) m)
                      | None => current
                      end)
      end.
      intros q1 Hq1 H.
      destruct (truthy (question_text q1)).
      -- match type of H with
         | bind ?m _ = _ => destruct m as [q2|] eqn:E; cbn [bind] in H; [|discriminate H]
         end.
         apply assign_index in E.
         inversion H; subst; clear H. cbn [question_index questions current_question].
         split; [exact Hq|]. rewrite <- Hi. f_equal.
         split_conditions; cbn [bind_table set_question_options index]; congruence.
      -- inversion H; subst; clear H. cbn [question_index questions current_question].
         split; [exact Hq|]. rewrite <- Hi. f_equal. congruence.
    * destruct (_is_option (strip p)).
      -- destruct (_parse_option (strip p)) as [o|].
         ++ destruct (append_option (question_options current) o (table_options st))
              as [r tabs'].
            inversion H; subst; clear H.
            cbn [question_index questions current_question].
            split; [exact Hq|]. rewrite <- Hi. reflexivity.
         ++ inversion H; subst. rewrite C. split; assumption.
      -- inversion H; subst. rewrite C. split; assumption.
  + inversion H; subst. rewrite C. split; assumption.
Qed.

Lemma main_loop_numbered paragraphs remaining :
forall st st' n,
  numbered st n ->
  main_loop paragraphs remaining st = Ok st' ->
  numbered st' (n + length (filter is_marker remaining)).
Proof.
induction remaining as [|p following IH]; intros st st' n Hn H; simpl in H.
- inversion H; subst. simpl. rewrite Nat.add_0_r. exact Hn.
- destruct (loop_body paragraphs p following st) as [st1|] eqn:E;
    cbn [bind] in H; [|discriminate H].
  pose proof (loop_body_numbered _ _ _ Hn E) as Hn1.
  specialize (IH _ _ _ Hn1 H).
  simpl. destruct (is_marker p); simpl.
  + replace (n + S (length (filter is_marker following)))%nat
      with (S n + length (filter is_marker following))%nat by lia.
    exact IH.
  + exact IH.
Qed.

(** C1: whenever segmentation returns its records, their [index] values
    are 1, 2, ..., N in output order, and N is the number of paragraphs
    recognized as answer-logic markers: every question created is in the
    output exactly once. *)
Theorem parse_questions_indices :
forall (paragraphs : list str) (tabs : store)
       (qs : list (Question (list SurveyOption))),
  _parse_questions paragraphs tabs = Ok qs ->
  map index qs = map Z.of_nat (seq 1 (length qs))
  /\ length qs = length (filter is_marker paragraphs).
Proof.
intros paragraphs tabs qs H.
unfold _parse_questions, parse_questions_refs in H.
destruct (main_loop paragraphs paragraphs (mkLocals [] None 1 tabs)) as [st|] eqn:E;
  cbn [bind] in H; [|discriminate H].
assert (H0 : numbered (mkLocals [] None 1 tabs) 0) by (split; reflexivity).
pose proof (main_loop_numbered _ _ H0 E) as [_ Hi]. simpl in Hi.
unfold indices_so_far, current_index in Hi.
assert (Hidx : forall l : list (Question optref),
           map index (map (resolve (table_options st)) l) = map index l).
{ intros l. rewrite map_map. apply map_ext. intros q. reflexivity. }
destruct (current_question st) as [current|].
- destruct (finalize_at_end paragraphs (table_options st) current) as [c'|] eqn:F;
    cbn [bind] in H; [|discriminate H].
  inversion H; subst; clear H. cbn [fst snd].
  apply finalize_at_end_index in F.
  assert (Hm : map index (questions st ++ [c'])
               = map Z.of_nat (seq 1 (length (filter is_marker paragraphs)))).
  { rewrite map_app. cbn [map]. rewrite F. exact Hi. }
  rewrite Hidx, Hm.
  assert (Hl : length (map (resolve (table_options st)) (questions st ++ [c']))
               = length (filter is_marker paragraphs)).
  { rewrite length_map. rewrite <- (length_map index), Hm, length_map, length_seq.
    reflexivity. }
  rewrite Hl. split; reflexivity.
- cbn [bind] in H. inversion H; subst; clear H. cbn [fst snd].
  rewrite app_nil_r in Hi.
  rewrite Hidx, Hi.
  assert (Hl : length (map (resolve (table_options st)) (questions st))
               = length (filter is_marker paragraphs)).
  { rewrite length_map. rewrite <- (length_map index), Hi, length_map, length_seq.
    reflexivity. }
  rewrite Hl. split; reflexivity.
Qed.
End IndexFacts.

Lemma parse_questions_indices_witness :
let paragraphs :=
  map u ["ASK ALL"; "1.1 What is your gender?"; "Single Answer";
         "ASK IF Q1x1=1"; "1.2 Which brand?"]%string in
let tabs := [[mkOption (u "1") (u "Male"); mkOption (u "2") (u "Female")]] in
exists qs,
  @_parse_questions Latin1.tables paragraphs tabs = Ok qs
  /\ map index qs = [1; 2]
  /\ map index qs = map Z.of_nat (seq 1 (length qs))
  /\ length qs = length (filter (@is_marker Latin1.tables) paragraphs).
Proof.
intros paragraphs tabs.
destruct (@_parse_questions Latin1.tables paragraphs tabs) as [qs|e] eqn:E;
  [|vm_compute in E; discriminate E].
exists qs. split; [reflexivity|]. split.
- vm_compute in E. injection E as <-. reflexivity.
- apply (@parse_questions_indices Latin1.tables paragraphs tabs qs). exact E.
Defined.

(** *** Escaping *)

Lemma replace_flat_map (c : char) (r : str) (f : char -> str) (s : str) :
replace c r (flat_map f s) = flat_map (fun x => replace c r (f x)) s.
Proof.
unfold replace. induction s as [|x s IH]; simpl.
- reflexivity.
- rewrite flat_map_app, IH. reflexivity.
Qed.

Lemma replace_as_flat_map (c : char) (r : str) (s : str) :
replace c r s = flat_map (fun x => replace c r [x]) s.
Proof.
unfold replace. apply flat_map_ext. intros x. simpl. symmetry. apply app_nil_r.
Qed.

Lemma escape_one_char (x : char) :
replace c_apos (u "&apos;")
  (replace c_quot (u "&quot;")
     (replace c_gt (u "&gt;")
        (replace c_lt (u "&lt;") (replace c_amp (u "&amp;") [x]))))
= escape_char x.
Proof.
unfold escape_char, char_eqb.
destruct (N.eqb_spec x c_amp) as [->|H1]; [reflexivity|].
destruct (N.eqb_spec x c_lt) as [->|H2]; [reflexivity|].
destruct (N.eqb_spec x c_gt) as [->|H3]; [reflexivity|].
destruct (N.eqb_spec x c_quot) as [->|H4]; [reflexivity|].
destruct (N.eqb_spec x c_apos) as [->|H5]; [reflexivity|].
unfold replace, char_eqb. simpl.
apply N.eqb_neq in H1, H2, H3, H4, H5.
rewrite H1. simpl. rewrite H2. simpl. rewrite H3. simpl. rewrite H4. simpl.
rewrite H5. reflexivity.
Qed.

(** [escape_xml_text] alone replaces each of the five reserved characters
    by its entity, once, and leaves every other character as it is. *)
Lemma escape_xml_text_charwise (text : str) :
escape_xml_text text = flat_map escape_char text.
Proof.
unfold escape_xml_text. destruct text as [|x s]; [reflexivity|].
cbn [truthy negb].
rewrite (replace_as_flat_map c_amp).
rewrite !replace_flat_map.
apply flat_map_ext. intros y. apply escape_one_char.
Qed.

(** The serializer escapes the text of an element once more. *)
Lemma serialized_text_charwise (text : str) :
_escape_cdata (escape_xml_text text)
= flat_map (fun c => _escape_cdata (escape_char c)) text.
Proof.
rewrite escape_xml_text_charwise. unfold _escape_cdata.
rewrite !replace_flat_map. reflexivity.
Qed.

Lemma serialized_reserved_characters :
_escape_cdata (escape_char c_lt) = u "&amp;lt;"
/\ _escape_cdata (escape_char c_amp) = u "&amp;amp;"
/\ _escape_cdata (escape_char c_quot) = u "&amp;quot;".
Proof.
repeat split; vm_compute; reflexivity.
Qed.

(** C6 (failing input): a Single Answer question whose text holds a
    less-than sign, an ampersand and a double quote.
    The title text is escaped once by [escape_xml_text], and the
    serialization of the element tree escapes the ampersands of the
    entities again: the document holds [&amp;lt;], [&amp;amp;] and
    [&amp;quot;], not [&lt;], [&amp;] and [&quot;]. *)
Theorem escaped_text_is_escaped_twice :
let text := u "a<b&c" ++ [c_quot] ++ u "d" in
let question := mkQuestion 1 (u "ASK ALL") (u "Q1x1") text (u "Single Answer") [] in
escape_xml_text text = u "a&lt;b&amp;c&quot;d"
/\ exists root counts document,
    @generate_xml Latin1.tables as_is [] [question] = Ok (root, counts, document)
    /\ document
       = u "<survey><radio label=" ++ [c_quot] ++ u "Q1x1" ++ [c_quot]
           ++ u "><title>a&amp;lt;b&amp;amp;c&amp;quot;d</title>"
           ++ u "<comment>${res.SCInst}</comment></radio><suspend /></survey>"
    /\ str_in (u "a&lt;b") document = false.
Proof.
split; [vm_compute; reflexivity|].
eexists _, _, _. split; [vm_compute; reflexivity|].
split; vm_compute; reflexivity.
Qed.

(** *** The spelling of the type marker *)

(** With the spelling [Multiple Answers] the emitter produces the
    multi-choice element: a checkbox with [atleast] 1, the title, the
    placeholder and one row per option labelled r<code>, without a value. *)
Lemma multiple_answers_schema (root : list Element) (c : Counts)
  (question : Question (list SurveyOption)) :
question_type question = u "Multiple Answers" ->
emit_question (root, c) question
= (root ++ [mkElement (u "checkbox")
              [(u "label", question_id question); (u "atleast", u "1")] []
              (mkElement (u "title") [] (escape_xml_text (question_text question)) []
               :: mkElement (u "comment") [] (u "${res.MRInst}") []
               :: map (fun o => mkElement (u "row") [(u "label", u "r" ++ option_code o)]
                                          (escape_xml_text (option_text o)) [])
                      (question_options question));
            mkElement (u "suspend") [] [] []],
   mkCounts (count_single_answer c) (count_multiple_answers c + 1)
            (count_numeric c) (count_unknown c)).
Proof.
intros Ht. unfold emit_question. rewrite Ht. reflexivity.
Qed.

(** C9 (failing input): the marker paragraph [Multiple Answer] is
    recognized by the classifier and its spelling is kept, and the emitter,
    which compares with [Multiple Answers], produces no element for the
    question and counts it as Unknown. *)
Theorem multiple_answer_spelling_is_dropped :
let paragraphs :=
  map u ["ASK ALL"; "1.1 Which fruits do you like?"; "Multiple Answer";
         "Apple 1"; "Pear 2"]%string in
exists question,
  @_parse_questions Latin1.tables paragraphs [] = Ok [question]
  /\ question_type question = u "Multiple Answer"
  /\ question_options question
     = [mkOption (u "1") (u "Apple"); mkOption (u "2") (u "Pear")]
  /\ emit_questions [] [question] = ([], mkCounts 0 0 0 1)
  /\ fst (emit_questions [] [set_question_type question (u "Multiple Answers")])
     = [generate_multiple_answers_xml
          (set_question_type question (u "Multiple Answers"));
        mkElement (u "suspend") [] [] []].
Proof.
eexists. split; [vm_compute; reflexivity|].
repeat split; vm_compute; reflexivity.
Qed.

(** *** The default fallback *)

(** C4 (failing input): the second question of a document without usable
    tables, and a third question with one option list.  No keyword rule
    matches, position [index - 1] is out of range, the forward search is
    empty, and the backward search starts at position [index - 2], beyond
    the end of the sequence: [IndexError], which ends the whole run in the
    [except] branch of [parse_survey_document]. *)
Theorem default_fallback_raises :
let question := mkQuestion 2 (u "ASK ALL") (u "Q1x2") (u "Second question") [] (Own []) in
let word_content :=
  mkWordContent (mkFileInfo (u "survey.docx") (u "survey.docx") 1024 (u "2025-01-01T10:00:00"))
                (map u ["ASK ALL"; "1.1 First question"; "ASK ALL"; "1.2 Second question"]%string)
                [] in
@_assign_table_options Latin1.tables question [] = Raise IndexError
/\ @_assign_table_options Latin1.tables
     (mkQuestion 3 (u "ASK ALL") (u "Q1x3") (u "Third question") [] (Own []))
     [[mkOption (u "1") (u "Male")]] = Raise IndexError
/\ @parse_survey_document Latin1.tables (u "2025-01-01T10:00:01") word_content
   = Raise IndexError.
Proof.
repeat split; vm_compute; reflexivity.
Qed.

(** *** Finalization on a new marker and at the end of the stream *)

Section Finalization.
Context {U : Unicode}.
Implicit Types (question current : Question optref) (tabs : store).

Lemma nth_nonempty tabs k :
nonempty_lists tabs -> (k < length tabs)%nat -> truthy (nth k tabs []) = true.
Proof.
intros Hn Hk. unfold nonempty_lists in Hn. rewrite Forall_forall in Hn.
apply Hn. apply nth_In. exact Hk.
Qed.

Lemma bound_is_settled tabs question k :
nonempty_lists tabs -> (k < length tabs)%nat -> settled tabs (bind_table question k).
Proof.
intros Hn Hk. split; cbn [bind_table set_question_options question_options valid_ref deref].
- exact Hk.
- rewrite (@nth_nonempty _ _ Hn Hk). discriminate.
Qed.

Lemma assign_settled tabs question question' :
nonempty_lists tabs ->
valid_ref tabs (question_options question) ->
_assign_table_options question tabs = Ok question' ->
settled tabs question'.
Proof.
intros Hn Hv H.
destruct (assign_cases _ _ H) as [->|[k [-> Hk]]].
- split; [exact Hv | intros _; exact H].
- apply bound_is_settled; assumption.
Qed.

Lemma settled_set_type tabs question t :
settled tabs question -> settled tabs (set_question_type question t).
Proof.
intros [Hv Hs]. split; cbn [set_question_type question_options]; [exact Hv|].
intros He. rewrite assign_set_type, (Hs He). reflexivity.
Qed.

Lemma no_text_settled tabs question :
valid_ref tabs (question_options question) ->
question_text question = [] -> settled tabs question.
Proof.
intros Hv Ht. split; [exact Hv|]. intros _. apply assign_no_text. exact Ht.
Qed.

Lemma text_lookahead_settled tabs question following :
nonempty_lists tabs ->
valid_ref tabs (question_options question) ->
question_text question = [] ->
forall question',
  text_lookahead question tabs following = Ok question' -> settled tabs question'.
Proof.
intros Hn Hv Ht.
induction following as [|p following IH]; cbn [text_lookahead]; intros question' H.
- injection H as <-. apply no_text_settled; assumption.
- destruct (truthy (strip p) && negb (_is_answer_logic (strip p))); [|apply IH; exact H].
  match type of H with
  | bind ?m _ = _ => destruct m as [q1|] eqn:E; cbn [bind] in H; [|discriminate H]
  end.
  injection H as <-.
  match goal with
  | |- context [type_lookahead q1 ?w] =>
      destruct (type_lookahead_type_only q1 w) as [t ->]
  end.
  apply settled_set_type.
  revert E. split_conditions; intros E;
    first [ eapply assign_settled; [exact Hn | | exact E]; exact Hv
          | injection E as <-; apply no_text_settled; assumption ].
Qed.

Lemma append_at_length k o tabs : length (append_at k o tabs) = length tabs.
Proof.
revert k. induction tabs as [|l tabs IH]; intros k; [destruct k; reflexivity|].
destruct k; simpl; [reflexivity|]. rewrite IH. reflexivity.
Qed.

Lemma append_at_nonempty k o tabs :
nonempty_lists tabs -> nonempty_lists (append_at k o tabs).
Proof.
unfold nonempty_lists. intros H. revert k.
induction H as [|l tabs Hl H IH]; intros k; [destruct k; constructor|].
destruct k; simpl.
- constructor; [|exact H]. destruct l; reflexivity.
- constructor; [exact Hl | apply IH].
Qed.

Lemma append_at_nth k o tabs :
(k < length tabs)%nat -> nth k (append_at k o tabs) [] = nth k tabs [] ++ [o].
Proof.
revert k. induction tabs as [|l tabs IH]; intros k Hk; simpl in Hk; [lia|].
destruct k; simpl; [reflexivity|]. apply IH. lia.
Qed.

Lemma append_option_settled tabs current o r tabs' :
nonempty_lists tabs ->
valid_ref tabs (question_options current) ->
append_option (question_options current) o tabs = (r, tabs') ->
nonempty_lists tabs' /\ settled tabs' (set_question_options current r).
Proof.
intros Hn Hv H. unfold append_option in H.
destruct (question_options current) as [l|k]; injection H as <- <-.
- split; [exact Hn|]. split; cbn [set_question_options question_options valid_ref deref].
  + exact I.
  + destruct l; discriminate.
- split; [apply append_at_nonempty; exact Hn|].
  split; cbn [set_question_options question_options valid_ref deref].
  + rewrite append_at_length. exact Hv.
  + rewrite append_at_nth by exact Hv. destruct (nth k tabs []); discriminate.
Qed.

Lemma loop_body_settled paragraphs p following st st' :
settled_state st ->
loop_body paragraphs p following st = Ok st' ->
settled_state st'.
Proof.
unfold settled_state, loop_body. intros [Hn Hc] H.
destruct (_is_answer_logic (strip p)).
- match type of H with
  | bind ?m _ = _ => destruct m as [q1|] eqn:E; cbn [bind] in H; [|discriminate H]
  end.
  injection H as <-. cbn [table_options current_question].
  split; [exact Hn|]. intros current Hcur. injection Hcur as <-.
  eapply text_lookahead_settled; [exact Hn | | | exact E]; [exact I | reflexivity].
- destruct (current_question st) as [current|] eqn:C.
  + specialize (Hc current eq_refl).
    destruct (_is_question_type (strip p)).
    * assert (Hq1 : forall m : option captures,
                 settled (table_options st)
                   (match m with
                    | Some m => set_question_type current (group 1 (strip p) m)
                    | None => current
                    end)).
      { intros [m|]; [apply settled_set_type|]; exact Hc. }
      revert H.
      generalize (Hq1 (re_match true question_patterns.question_type (strip p))).
      generalize (match re_match true question_patterns.question_type (strip p) with
                  | Some m => set_question_type current (group 1 (strip p) m)
                  | None => current
                  end).
      intros q1 Hs1 H.
      destruct (truthy (question_text q1)).
      -- match type of H with
         | bind ?m _ = _ => destruct m as [q2|] eqn:E; cbn [bind] in H; [|discriminate H]
         end.
         injection H as <-. cbn [table_options current_question].
         split; [exact Hn|]. intros c Hcur. injection Hcur as <-.
         pose proof (@assign_settled _ _ _ Hn (proj1 Hs1) E) as Hs2.
         destruct (str_in (u "银行") (question_text q2) && str_in (u "Multiple") (strip p));
           [|exact Hs2].
         destruct (0 <? length (table_options st))%nat eqn:L; [|exact Hs2].
         apply bound_is_settled; [exact Hn|]. apply Nat.ltb_lt in L. lia.
      -- injection H as <-. cbn [table_options current_question].
         split; [exact Hn|]. intros c Hcur. injection Hcur as <-. exact Hs1.
    * destruct (_is_option (strip p)).
      -- destruct (_parse_option (strip p)) as [o|].
         ++ destruct (append_option (question_options current) o (table_options st))
              as [r tabs'] eqn:A.
            injection H as <-. cbn [table_options current_question].
            destruct (@append_option_settled _ _ _ _ _ Hn (proj1 Hc) A) as [Hn' Hs'].
            split; [exact Hn'|]. intros c Hcur. injection Hcur as <-. exact Hs'.
         ++ injection H as <-. split; [exact Hn|]. intros c Hcur.
            rewrite C in Hcur. injection Hcur as <-. exact Hc.
      -- injection H as <-. split; [exact Hn|]. intros c Hcur.
         rewrite C in Hcur. injection Hcur as <-. exact Hc.
  + injection H as <-. split; [exact Hn|]. intros c Hcur.
    rewrite C in Hcur. discriminate Hcur.
Qed.

Lemma finalize_at_end_settled paragraphs tabs current :
settled tabs current ->
finalize_at_end paragraphs tabs current = Ok (finalize_on_marker paragraphs tabs current).
Proof.
intros [_ Hs]. unfold finalize_at_end, finalize_on_marker.
destruct (truthy (deref tabs (question_options current))) eqn:T; cbn [negb].
- reflexivity.
- rewrite (Hs eq_refl). reflexivity.
Qed.

Lemma loop_body_spec_agrees paragraphs p following st :
settled_state st ->
loop_body_spec paragraphs p following st = loop_body paragraphs p following st.
Proof.
intros [Hn Hc]. unfold loop_body_spec.
destruct (_is_answer_logic (strip p)) eqn:M; [|reflexivity].
destruct (current_question st) as [current|] eqn:C; [|reflexivity].
rewrite (@finalize_at_end_settled paragraphs _ _ (Hc current eq_refl)). cbn [bind].
unfold loop_body. rewrite M, C. reflexivity.
Qed.

Lemma main_loop_spec_agrees paragraphs remaining :
forall st,
  settled_state st ->
  main_loop_spec paragraphs remaining st = main_loop paragraphs remaining st.
Proof.
induction remaining as [|p following IH]; intros st Hs; cbn [main_loop_spec main_loop].
- reflexivity.
- rewrite (@loop_body_spec_agrees paragraphs p following _ Hs).
  destruct (loop_body paragraphs p following st) as [st1|e] eqn:E; cbn [bind].
  + apply IH. eapply loop_body_settled; [exact Hs | exact E].
  + reflexivity.
Qed.

Lemma parse_questions_agrees paragraphs tabs :
nonempty_lists tabs ->
_parse_questions paragraphs tabs = parse_questions_spec paragraphs tabs.
Proof.
intros Hn. unfold _parse_questions, parse_questions_refs, parse_questions_spec.
rewrite main_loop_spec_agrees.
- destruct (main_loop paragraphs paragraphs (mkLocals [] None 1 tabs)) as [st|e];
    cbn [bind]; [|reflexivity].
  destruct (current_question st) as [current|]; [|reflexivity].
  destruct (finalize_at_end paragraphs (table_options st) current); reflexivity.
- split; [exact Hn|]. intros current Hcur. discriminate Hcur.
Qed.

(** On a new marker the question in progress is appended with its type
    filled in by the fallback inference when it was empty; its other
    fields, its option list and the store are left as they are. *)
Lemma marker_appends_current paragraphs p following st st' current :
_is_answer_logic (strip p) = true ->
current_question st = Some current ->
loop_body paragraphs p following st = Ok st' ->
questions st' = questions st ++ [finalize_on_marker paragraphs (table_options st) current]
/\ table_options st' = table_options st
/\ exists t, finalize_on_marker paragraphs (table_options st) current
             = set_question_type current t.
Proof.
unfold loop_body. intros M C H. rewrite M, C in H.
match type of H with
| bind ?m _ = _ => destruct m as [q1|] eqn:E; cbn [bind] in H; [|discriminate H]
end.
injection H as <-. cbn [questions table_options].
split; [reflexivity|]. split; [reflexivity|]. apply finalize_on_marker_type_only.
Qed.

(** C3: for every paragraph sequence and every sequence of table grids,
    segmentation on the option lists of the extractor gives the records it
    gives when each new marker finalizes the question in progress with the
    end-of-stream sequence: bind options if there are none, infer the type
    if there is none, append.  The marker branch holds no binding call of
    its own; a question in progress whose option list is still empty is one
    the binding leaves as it is, because the binding was attempted when its
    text was located and at every type marker since, and no list of the
    extractor is empty. *)
Theorem marker_finalization_agrees_with_end_of_stream :
forall (paragraphs : list str) (tables : list Table),
  _parse_questions paragraphs (_extract_table_options tables)
  = parse_questions_spec paragraphs (_extract_table_options tables).
Proof.
intros paragraphs tables. apply parse_questions_agrees. apply extracted_tables_nonempty.
Qed.
End Finalization.

(** A type marker ahead of the first question, and a table without a
    usable row.  At the second marker the question in progress has neither
    a type nor options: the marker branch finds the type by the search over
    the whole document, the end-of-stream sequence attempts the binding
    first, gets nothing, and finds the same type. *)
Lemma marker_finalization_agrees_with_end_of_stream_witness :
let paragraphs :=
  map u ["Single Answer"; "ASK ALL"; "1.1 Which brand?"; "ASK ALL"]%string in
let tables := [mkTable 0 1 2 [[mkCell 0 0 []; mkCell 0 1 (u "1")]]] in
let current :=
  mkQuestion 1 (u "ASK ALL") (u "Q1x1") (u "Which brand?") [] (Own []) in
@_extract_table_options Latin1.tables tables = []
/\ @finalize_on_marker Latin1.tables paragraphs [] current
   = set_question_type current (u "Single Answer")
/\ @finalize_at_end Latin1.tables paragraphs [] current
   = Ok (set_question_type current (u "Single Answer"))
/\ @parse_questions_spec Latin1.tables paragraphs (@_extract_table_options Latin1.tables tables)
   = Ok [mkQuestion 1 (u "ASK ALL") (u "Q1x1") (u "Which brand?") (u "Single Answer") [];
         mkQuestion 2 (u "ASK ALL") [] [] [] []]
/\ @_parse_questions Latin1.tables paragraphs (@_extract_table_options Latin1.tables tables)
   = @parse_questions_spec Latin1.tables paragraphs
       (@_extract_table_options Latin1.tables tables).
Proof.
intros paragraphs tables current.
split; [vm_compute; reflexivity|].
split; [vm_compute; reflexivity|].
split; [vm_compute; reflexivity|].
split; [vm_compute; reflexivity|].
apply (@marker_finalization_agrees_with_end_of_stream Latin1.tables paragraphs tables).
Defined.

(** ** Further properties of the code *)

(** *** [escape_xml_text] *)

Lemma escape_char_cases (x : char) :
(reserved x = false /\ escape_char x = [x])
\/ (x = c_amp /\ escape_char x = u "&amp;")
\/ (x = c_lt /\ escape_char x = u "&lt;")
\/ (x = c_gt /\ escape_char x = u "&gt;")
\/ (x = c_quot /\ escape_char x = u "&quot;")
\/ (x = c_apos /\ escape_char x = u "&apos;").
Proof.
unfold escape_char, reserved, char_eqb.
destruct (N.eqb_spec x c_amp) as [->|H1]; [right; left; split; reflexivity|].
destruct (N.eqb_spec x c_lt) as [->|H2]; [right; right; left; split; reflexivity|].
destruct (N.eqb_spec x c_gt) as [->|H3];
  [right; right; right; left; split; reflexivity|].
destruct (N.eqb_spec x c_quot) as [->|H4];
  [right; right; right; right; left; split; reflexivity|].
destruct (N.eqb_spec x c_apos) as [->|H5];
  [right; right; right; right; right; split; reflexivity|].
left. split; reflexivity.
Qed.

(** X1: the five successive replacements of [escape_xml_text] amount to one
    pass over the text that puts the entity in the place of each reserved
    character and keeps every other character; in particular the ampersands
    of the entities already written are not escaped a second time by the
    later replacements. *)
Theorem escape_xml_text_entities :
forall text : str, escape_xml_text text = flat_map escape_char text.
Proof.
intros text. apply escape_xml_text_charwise.
Qed.

(** X2: the text returned by [escape_xml_text] holds no less-than sign, no
    greater-than sign, no double quote and no apostrophe. *)
Theorem escape_xml_text_no_markup :
forall text : str,
  Forall (fun c => c <> c_lt /\ c <> c_gt /\ c <> c_quot /\ c <> c_apos)
         (escape_xml_text text).
Proof.
intros text. rewrite escape_xml_text_charwise.
apply Forall_forall. intros c Hin.
apply in_flat_map in Hin. destruct Hin as [x [_ Hc]].
destruct (escape_char_cases x) as [[Hr E]|[[-> E]|[[-> E]|[[-> E]|[[-> E]|[-> E]]]]]];
  rewrite E in Hc.
- destruct Hc as [<-|[]].
  unfold reserved, char_eqb in Hr.
  repeat (apply orb_false_elim in Hr; destruct Hr as [Hr ?]).
  repeat split; intros ->; discriminate.
- repeat (destruct Hc as [<-|Hc]; [repeat split; discriminate|]); destruct Hc.
- repeat (destruct Hc as [<-|Hc]; [repeat split; discriminate|]); destruct Hc.
- repeat (destruct Hc as [<-|Hc]; [repeat split; discriminate|]); destruct Hc.
- repeat (destruct Hc as [<-|Hc]; [repeat split; discriminate|]); destruct Hc.
- repeat (destruct Hc as [<-|Hc]; [repeat split; discriminate|]); destruct Hc.
Qed.

Lemma escape_chars_injective (a : str) :
forall b : str, flat_map escape_char a = flat_map escape_char b -> a = b.
Proof.
induction a as [|x a IH]; intros b H.
- destruct b as [|y b]; [reflexivity|].
  cbn [flat_map] in H.
  destruct (escape_char_cases y) as [[_ E]|[[_ E]|[[_ E]|[[_ E]|[[_ E]|[_ E]]]]]];
    rewrite E in H; discriminate H.
- destruct b as [|y b].
  + cbn [flat_map] in H.
    destruct (escape_char_cases x) as [[_ E]|[[_ E]|[[_ E]|[[_ E]|[[_ E]|[_ E]]]]]];
      rewrite E in H; discriminate H.
  + cbn [flat_map] in H.
    destruct (escape_char_cases x) as [[Hx Ex]|[[-> Ex]|[[-> Ex]|[[-> Ex]|[[-> Ex]|[-> Ex]]]]]];
    destruct (escape_char_cases y) as [[Hy Ey]|[[-> Ey]|[[-> Ey]|[[-> Ey]|[[-> Ey]|[-> Ey]]]]]];
      rewrite ?Ex, ?Ey in H; vm_compute u in H; simpl in H;
      try discriminate H;
      try (injection H as H; f_equal; apply IH; exact H);
      try (injection H as -> H; f_equal; apply IH; exact H);
      try (injection H as E1 H; subst; vm_compute in Hy; discriminate Hy);
      try (injection H as E1 H; subst; vm_compute in Hx; discriminate Hx).
Qed.

(** X3: [escape_xml_text] loses nothing: two texts with the same escaped
    form are the same text. *)
Theorem escape_xml_text_injective :
forall a b : str, escape_xml_text a = escape_xml_text b -> a = b.
Proof.
intros a b H. rewrite !escape_xml_text_charwise in H.
apply escape_chars_injective. exact H.
Qed.

Lemma escape_xml_text_injective_witness :
escape_xml_text (u "R&D <1>") = escape_xml_text (u "R&D <1>")
/\ u "R&D <1>" = u "R&D <1>".
Proof.
split; [reflexivity|].
apply (escape_xml_text_injective (u "R&D <1>") (u "R&D <1>")). reflexivity.
Defined.

(** *** The extracted options *)

Lemma digits_of_nonempty (fuel : nat) (n : N) (acc : str) :
truthy acc = true -> truthy (digits_of fuel n acc) = true.
Proof.
revert n acc. induction fuel as [|fuel IH]; intros n acc H; simpl; [exact H|].
destruct (n / 10 =? 0)%N; [reflexivity | apply IH; reflexivity].
Qed.

Lemma str_of_N_nonempty (n : N) : truthy (str_of_N n) = true.
Proof.
unfold str_of_N. simpl. destruct (n / 10 =? 0)%N; [reflexivity|].
apply digits_of_nonempty. reflexivity.
Qed.

Section ExtractedOptions.
Context {U : Unicode}.

Lemma pair_option_complete (t c : str) : Forall complete (pair_option t c).
Proof.
unfold pair_option. destruct (truthy t) eqn:T; destruct (truthy c) eqn:C; simpl;
  try constructor; try constructor; try split; assumption.
Qed.

Lemma row_policy_complete (count : nat) (cells : list str) :
Forall complete (row_policy count cells).
Proof.
unfold row_policy.
destruct cells as [|c0 [|c1 [|c2 [|c3 cells]]]].
- constructor.
- destruct (truthy c0) eqn:T; simpl; [|constructor].
  destruct (negb (isdigit c0)); [|constructor].
  constructor; [|constructor]. split; [apply str_of_N_nonempty | exact T].
- apply pair_option_complete.
- apply pair_option_complete.
- apply Forall_app. split; apply pair_option_complete.
Qed.

Lemma row_policy_length (count : nat) (cells : list str) :
(length (row_policy count cells) <= 2)%nat.
Proof.
unfold row_policy, pair_option.
destruct cells as [|c0 [|c1 [|c2 [|c3 cells]]]]; simpl; try lia.
- destruct (truthy c0 && negb (isdigit c0)); simpl; lia.
- destruct (truthy c0 && truthy c1); simpl; lia.
- destruct (truthy c0 && truthy c1); simpl; lia.
- rewrite length_app.
  destruct (truthy c0 && truthy c1); destruct (truthy c2 && truthy c3); simpl; lia.
Qed.

Lemma table_policy_from (grid : list (list Cell)) :
forall acc : list SurveyOption,
  Forall complete acc ->
  Forall complete
    (fold_left (fun options r => options ++ row_policy (length options) (trimmed r))
               grid acc)
  /\ (length (fold_left
                (fun options r => options ++ row_policy (length options) (trimmed r))
                grid acc)
      <= length acc + 2 * length grid)%nat.
Proof.
induction grid as [|r grid IH]; intros acc Hacc; simpl.
- split; [exact Hacc | lia].
- destruct (IH (acc ++ row_policy (length acc) (trimmed r))) as [H1 H2].
  { apply Forall_app. split; [exact Hacc | apply row_policy_complete]. }
  split; [exact H1|].
  rewrite length_app in H2.
  pose proof (row_policy_length (length acc) (trimmed r)). lia.
Qed.

(** X4: every option the extractor yields has a non-empty code and a
    non-empty text, whatever the grids hold (empty cells, rows of any
    width, label-only rows). *)
Theorem extracted_options_complete :
forall tables : list Table,
  Forall (Forall (fun o => option_code o <> [] /\ option_text o <> []))
         (_extract_table_options tables).
Proof.
intros tables. rewrite extract_table_options_filter.
apply Forall_forall. intros options Hin.
apply filter_In in Hin. destruct Hin as [Hin _].
apply in_map_iff in Hin. destruct Hin as [t [<- _]].
unfold table_policy.
destruct (table_policy_from (data t) (acc:=[])) as [H _]; [constructor|].
eapply Forall_impl; [|exact H].
intros o [Hc Ht]. split; intros E; rewrite E in *; discriminate.
Qed.

(** X5: a table yields at most two options per row, and the extractor
    yields at most one list per table. *)
Theorem extracted_options_bounds :
forall tables : list Table,
  (length (_extract_table_options tables) <= length tables)%nat
  /\ forall t, (length (extract_table t) <= 2 * length (data t))%nat.
Proof.
intros tables. split.
- rewrite extract_table_options_filter.
  rewrite <- (length_map (fun t => table_policy (data t)) tables).
  apply filter_length_le.
- intros t. rewrite extract_table_policy. unfold table_policy.
  destruct (table_policy_from (data t) (acc:=[])) as [_ H]; [constructor|].
  simpl in H. exact H.
Qed.

Lemma label_rows_from (grid : list (list Cell)) :
Forall (fun r => length r = 1%nat) grid ->
forall acc : list SurveyOption,
exists added,
  fold_left (fun options r => options ++ row_policy (length options) (trimmed r))
            grid acc
  = acc ++ added
  /\ map option_code added
     = map (fun n => str_of_N (N.of_nat n)) (seq (S (length acc)) (length added)).
Proof.
induction 1 as [|r grid Hr Hgrid IH]; intros acc; cbn [fold_left].
- exists []. split; [symmetry; apply app_nil_r | reflexivity].
- destruct r as [|c0 [|c1 r]]; try discriminate Hr.
  change (trimmed [c0]) with [strip (text c0)]. cbn [row_policy].
  destruct (truthy (strip (text c0)) && negb (isdigit (strip (text c0)))).
  + match goal with
    | |- context [fold_left _ grid ?a] => destruct (IH a) as [added [E C]]
    end.
    eexists (_ :: added). split.
    * rewrite E, <- app_assoc. reflexivity.
    * cbn [map length seq option_code]. f_equal.
      rewrite C, length_app, Nat.add_comm. reflexivity.
  + rewrite app_nil_r. apply IH.
Qed.

(** X6: in a table made of one-cell rows the synthesized codes are the
    decimal numbers 1, 2, 3, ... in row order: skipped rows (blank or
    purely numeric labels) leave no gap. *)
Theorem label_only_codes_are_consecutive :
forall t : Table,
  Forall (fun r => length r = 1%nat) (data t) ->
  map option_code (extract_table t)
  = map (fun n => str_of_N (N.of_nat n)) (seq 1 (length (extract_table t))).
Proof.
intros t H. rewrite extract_table_policy. unfold table_policy.
destruct (label_rows_from H []) as [added [E C]].
rewrite E. exact C.
Qed.
End ExtractedOptions.

Lemma label_only_codes_are_consecutive_witness :
let t := mkTable 0 4 1 [[mkCell 0 0 (u "Red")]; [mkCell 1 0 (u "2024")];
                        [mkCell 2 0 (u "  ")]; [mkCell 3 0 (u "Blue")]] in
Forall (fun r => length r = 1%nat) (data t)
/\ map option_code (@extract_table Latin1.tables t) = [u "1"; u "2"]
/\ map option_code (@extract_table Latin1.tables t)
   = map (fun n => str_of_N (N.of_nat n))
         (seq 1 (length (@extract_table Latin1.tables t))).
Proof.
intros t.
assert (H : Forall (fun r => length r = 1%nat) (data t)).
{ repeat constructor. }
split; [exact H|]. split; [vm_compute; reflexivity|].
apply (@label_only_codes_are_consecutive Latin1.tables t H).
Defined.

(** *** The option assignment: what it changes and when it raises *)

Lemma range_nil (a b : Z) : b <= a -> range a b = [].
Proof.
intros H. unfold range. replace (Z.to_nat (b - a)) with 0%nat by lia. reflexivity.
Qed.

Lemma range_cons (a b : Z) : a < b -> range a b = a :: range (a + 1) b.
Proof.
intros H. unfold range.
replace (Z.to_nat (b - a)) with (S (Z.to_nat (b - (a + 1)))) by lia.
cbn [seq map]. f_equal; [lia|].
rewrite <- seq_shift, map_map. apply map_ext. intros n. lia.
Qed.

Lemma range_down_nil (a : Z) : a < 0 -> range_down a = [].
Proof.
intros H. unfold range_down. replace (Z.to_nat (a + 1)) with 0%nat by lia. reflexivity.
Qed.

Lemma range_down_cons (a : Z) : 0 <= a -> range_down a = a :: range_down (a - 1).
Proof.
intros H. unfold range_down.
replace (Z.to_nat (a + 1)) with (S (Z.to_nat (a - 1 + 1))) by lia.
cbn [seq map]. f_equal; [lia|].
rewrite <- seq_shift, map_map. apply map_ext. intros n. lia.
Qed.

Lemma py_index_nonneg {A} (l : list A) (i : Z) :
0 <= i ->
py_index l i = if i <? Z.of_nat (length l) then Some (Z.to_nat i) else None.
Proof.
intros H. unfold py_index.
destruct (0 <=? i) eqn:E1; [|apply Z.leb_gt in E1; lia].
destruct (i <? Z.of_nat (length l)) eqn:E2; simpl; [reflexivity|].
destruct (i <? 0) eqn:E3; [apply Z.ltb_lt in E3; lia|].
rewrite andb_false_r. reflexivity.
Qed.

Lemma truthy_false {A} (l : list A) : truthy l = false -> l = [].
Proof. destruct l; [reflexivity | discriminate]. Qed.

(** The forward search: the first non-empty list from position [a] on. *)
Lemma first_nonempty_forward (tabs : store) (b : Z) (n : nat) :
forall a : Z,
  Z.to_nat (b - a) = n -> 0 <= a ->
  match first_nonempty tabs (range a b) with
  | Ok (Some k) =>
      a <= Z.of_nat k < b /\ (k < length tabs)%nat
      /\ truthy (nth k tabs []) = true
      /\ forall j, (Z.to_nat a <= j < k)%nat -> empty_at tabs j
  | Ok None => forall j, a <= Z.of_nat j < b -> empty_at tabs j
  | Raise _ => Z.of_nat (length tabs) < b
  end.
Proof.
induction n as [|n IH]; intros a Hn Ha.
- rewrite range_nil by lia. simpl. intros j Hj. lia.
- rewrite range_cons by lia. cbn [first_nonempty].
  rewrite py_index_nonneg by exact Ha.
  destruct (a <? Z.of_nat (length tabs)) eqn:E.
  + apply Z.ltb_lt in E.
    destruct (truthy (nth (Z.to_nat a) tabs [])) eqn:T.
    * split; [lia|]. split; [lia|]. split; [exact T|]. intros j Hj. lia.
    * specialize (IH (a + 1) ltac:(lia) ltac:(lia)).
      destruct (first_nonempty tabs (range (a + 1) b)) as [[k|]|e].
      -- destruct IH as (H1 & H2 & H3 & H4).
         split; [lia|]. split; [exact H2|]. split; [exact H3|].
         intros j Hj. destruct (Nat.eq_dec j (Z.to_nat a)) as [->|Hne].
         ++ apply truthy_false. exact T.
         ++ apply H4. lia.
      -- intros j Hj. destruct (Nat.eq_dec j (Z.to_nat a)) as [->|Hne].
         ++ apply truthy_false. exact T.
         ++ apply IH. lia.
      -- exact IH.
  + apply Z.ltb_ge in E. lia.
Qed.

(** The backward search: the first non-empty list from position [a] down. *)
Lemma first_nonempty_backward (tabs : store) (n : nat) :
forall a : Z,
  Z.to_nat (a + 1) = n ->
  match first_nonempty tabs (range_down a) with
  | Ok (Some k) =>
      Z.of_nat k <= a /\ (k < length tabs)%nat
      /\ truthy (nth k tabs []) = true
      /\ forall j, (k < j)%nat -> Z.of_nat j <= a -> empty_at tabs j
  | Ok None => forall j, Z.of_nat j <= a -> empty_at tabs j
  | Raise _ => Z.of_nat (length tabs) <= a
  end.
Proof.
induction n as [|n IH]; intros a Hn.
- rewrite range_down_nil by lia. simpl. intros j Hj. lia.
- rewrite range_down_cons by lia. cbn [first_nonempty].
  rewrite py_index_nonneg by lia.
  destruct (a <? Z.of_nat (length tabs)) eqn:E.
  + apply Z.ltb_lt in E.
    destruct (truthy (nth (Z.to_nat a) tabs [])) eqn:T.
    * split; [lia|]. split; [lia|]. split; [exact T|]. intros j Hj Hja. lia.
    * specialize (IH (a - 1) ltac:(lia)).
      destruct (first_nonempty tabs (range_down (a - 1))) as [[k|]|e].
      -- destruct IH as (H1 & H2 & H3 & H4).
         split; [lia|]. split; [exact H2|]. split; [exact H3|].
         intros j Hj Hja. destruct (Nat.eq_dec j (Z.to_nat a)) as [->|Hne].
         ++ apply truthy_false. exact T.
         ++ apply H4; lia.
      -- intros j Hja. destruct (Nat.eq_dec j (Z.to_nat a)) as [->|Hne].
         ++ apply truthy_false. exact T.
         ++ apply IH. lia.
      -- lia.
  + apply Z.ltb_ge in E. lia.
Qed.

Section AssignmentRules.
Context {U : Unicode}.
Implicit Types (question : Question optref) (tabs : store).

Lemma assign_without_keyword question tabs :
truthy (question_text question) = true ->
keyword_rule (question_text question) = false ->
_assign_table_options question tabs = default_fallback question tabs.
Proof.
intros Ht Hk. unfold keyword_rule in Hk.
repeat (apply orb_false_elim in Hk; destruct Hk as [Hk ?]).
unfold _assign_table_options, default_fallback. cbv zeta.
rewrite Ht. cbn [negb].
repeat match goal with
       | E : ?c = false |- context [if ?c then _ else _] => rewrite E
       end.
reflexivity.
Qed.

Lemma assign_with_keyword question tabs :
keyword_rule (question_text question) = true ->
exists question', _assign_table_options question tabs = Ok question'.
Proof.
intros Hk. unfold keyword_rule in Hk. unfold _assign_table_options. cbv zeta.
repeat match goal with
       | |- context [if ?c then _ else _] => destruct c eqn:?
       | |- context [match ?c with Some _ => _ | None => _ end] => destruct c eqn:?
       end;
  try (eexists; reflexivity);
  exfalso;
  repeat match goal with
         | E : _ = false |- _ => rewrite E in Hk; clear E
         end;
  discriminate Hk.
Qed.
End AssignmentRules.

Lemma first_nonempty_raises (tabs : store) (idxs : list Z) (e : exn) :
first_nonempty tabs idxs = Raise e -> e = IndexError.
Proof.
induction idxs as [|i idxs IH]; simpl; intros H; [discriminate H|].
destruct (py_index tabs i) as [k|]; [|injection H as <-; reflexivity].
destruct (truthy (nth k tabs [])); [discriminate H | apply IH; exact H].
Qed.

Lemma first_nonempty_backward_ok (tabs : store) (a : Z) :
a < Z.of_nat (length tabs) ->
exists found, first_nonempty tabs (range_down a) = Ok found.
Proof.
intros Ha.
pose proof (@first_nonempty_backward tabs (Z.to_nat (a + 1)) a eq_refl) as H.
destruct (first_nonempty tabs (range_down a)) as [found|e]; [eauto | lia].
Qed.

Lemma first_nonempty_backward_raise (tabs : store) (a : Z) :
Z.of_nat (length tabs) <= a ->
first_nonempty tabs (range_down a) = Raise IndexError.
Proof.
intros Ha. rewrite range_down_cons by lia. cbn [first_nonempty].
rewrite py_index_nonneg by lia.
destruct (a <? Z.of_nat (length tabs)) eqn:E; [apply Z.ltb_lt in E; lia | reflexivity].
Qed.

Lemma first_nonempty_forward_ok (tabs : store) (a : Z) :
0 <= a ->
exists found, first_nonempty tabs (range a (Z.of_nat (length tabs))) = Ok found.
Proof.
intros Ha.
pose proof (@first_nonempty_forward tabs (Z.of_nat (length tabs))
              (Z.to_nat (Z.of_nat (length tabs) - a)) a eq_refl Ha) as H.
destruct (first_nonempty tabs (range a (Z.of_nat (length tabs)))) as [found|e];
  [eauto | lia].
Qed.

Lemma position_empty (tabs : store) (ti : Z) :
0 <= ti ->
((0 <=? ti) && (ti <? Z.of_nat (length tabs)))
  && truthy (nth (Z.to_nat ti) tabs []) = false ->
empty_at tabs (Z.to_nat ti).
Proof.
intros H0 H. unfold empty_at.
destruct (ti <? Z.of_nat (length tabs)) eqn:E.
- replace (0 <=? ti) with true in H by (symmetry; apply Z.leb_le; exact H0).
  simpl in H. apply truthy_false. exact H.
- apply Z.ltb_ge in E. apply nth_overflow. lia.
Qed.

Lemma default_fallback_raise_iff (question : Question optref) (tabs : store) :
1 <= index question ->
(default_fallback question tabs = Raise IndexError
 <-> Z.of_nat (length tabs) + 2 <= index question)
/\ (forall e, default_fallback question tabs = Raise e -> e = IndexError).
Proof.
intros Hi. unfold default_fallback. cbv zeta.
destruct (((0 <=? index question - 1)
           && (index question - 1 <? Z.of_nat (length tabs)))
          && truthy (nth (Z.to_nat (index question - 1)) tabs [])) eqn:C.
- to_props. split; [split; [discriminate | lia] | discriminate].
- pose proof (@first_nonempty_forward tabs (Z.of_nat (length tabs))
                (Z.to_nat (Z.of_nat (length tabs) - (index question - 1 + 1)))
                (index question - 1 + 1) eq_refl ltac:(lia)) as F.
  destruct (first_nonempty tabs
              (range (index question - 1 + 1) (Z.of_nat (length tabs))))
    as [[k|]|e]; cbn [bind]; [| |lia].
  + split; [split; [discriminate | lia] | discriminate].
  + destruct (Z_lt_le_dec (index question - 1 - 1) (Z.of_nat (length tabs)))
      as [Hlt|Hge].
    * destruct (first_nonempty_backward_ok tabs Hlt) as [found ->]. cbn [bind].
      destruct found; (split; [split; [discriminate | lia] | discriminate]).
    * rewrite (first_nonempty_backward_raise tabs Hge). cbn [bind].
      split; [split; [lia | reflexivity] | intros e H; injection H as <-; reflexivity].
Qed.

Lemma default_fallback_result (question question' : Question optref) (tabs : store) :
1 <= index question ->
default_fallback question tabs = Ok question' ->
(question' = question /\ forall j, empty_at tabs j)
\/ exists k,
    question' = bind_table question k
    /\ (k < length tabs)%nat
    /\ truthy (nth k tabs []) = true
    /\ (k = Z.to_nat (index question - 1)
        \/ ((Z.to_nat (index question - 1) < k)%nat
            /\ forall j, (Z.to_nat (index question - 1) <= j < k)%nat -> empty_at tabs j)
        \/ ((k < Z.to_nat (index question - 1))%nat
            /\ forall j, (k < j)%nat -> empty_at tabs j)).
Proof.
intros Hi. unfold default_fallback. cbv zeta.
destruct (((0 <=? index question - 1)
           && (index question - 1 <? Z.of_nat (length tabs)))
          && truthy (nth (Z.to_nat (index question - 1)) tabs [])) eqn:C.
- intros H. injection H as <-. right. to_props.
  eexists. split; [reflexivity|]. split; [lia|]. split; [assumption|]. left. reflexivity.
- pose proof (@position_empty tabs (index question - 1) ltac:(lia) C) as Hti.
  pose proof (@first_nonempty_forward tabs (Z.of_nat (length tabs))
                (Z.to_nat (Z.of_nat (length tabs) - (index question - 1 + 1)))
                (index question - 1 + 1) eq_refl ltac:(lia)) as F.
  destruct (first_nonempty tabs
              (range (index question - 1 + 1) (Z.of_nat (length tabs))))
    as [[k|]|e]; cbn [bind]; [| |discriminate].
  + intros H. injection H as <-. right. destruct F as (F1 & F2 & F3 & F4).
    exists k. split; [reflexivity|]. split; [exact F2|]. split; [exact F3|].
    right. left. split; [lia|].
    intros j Hj. destruct (Nat.eq_dec j (Z.to_nat (index question - 1))) as [->|Hne].
    * exact Hti.
    * apply F4. lia.
  + pose proof (@first_nonempty_backward tabs
                  (Z.to_nat (index question - 1 - 1 + 1))
                  (index question - 1 - 1) eq_refl) as B.
    assert (Hafter : forall j, (Z.to_nat (index question - 1) <= j)%nat ->
                               empty_at tabs j).
    { intros j Hj. destruct (Nat.eq_dec j (Z.to_nat (index question - 1))) as [->|Hne].
      - exact Hti.
      - destruct (Nat.lt_ge_cases j (length tabs)) as [Hlt|Hge].
        + apply F. lia.
        + apply nth_overflow. exact Hge. }
    destruct (first_nonempty tabs (range_down (index question - 1 - 1)))
      as [[k|]|e]; cbn [bind]; [| |discriminate].
    * intros H. injection H as <-. right. destruct B as (B1 & B2 & B3 & B4).
      exists k. split; [reflexivity|]. split; [exact B2|]. split; [exact B3|].
      right. right. split; [lia|].
      intros j Hj.
      destruct (Nat.lt_ge_cases j (Z.to_nat (index question - 1))) as [Hlt|Hge].
      -- apply B4; lia.
      -- apply Hafter. exact Hge.
    * intros H. injection H as <-. left. split; [reflexivity|].
      intros j.
      destruct (Nat.lt_ge_cases j (Z.to_nat (index question - 1))) as [Hlt|Hge].
      -- apply B. lia.
      -- apply Hafter. exact Hge.
Qed.

Section AssignmentTheorems.
Context {U : Unicode}.

(** X7: the option assignment changes nothing but [question_options], and
    it sets it to one of the lists of the sequence or leaves it alone. *)
Theorem assign_table_options_frame :
forall (question question' : Question optref) (tabs : store),
  _assign_table_options question tabs = Ok question' ->
  index question' = index question
  /\ answer_logic question' = answer_logic question
  /\ question_id question' = question_id question
  /\ question_text question' = question_text question
  /\ question_type question' = question_type question
  /\ (question_options question' = question_options question
      \/ exists k, question_options question' = Tab k /\ (k < length tabs)%nat).
Proof.
intros question question' tabs H.
destruct (assign_cases _ _ H) as [->|[k [-> Hk]]].
- repeat split; try reflexivity. left. reflexivity.
- repeat split; try reflexivity. right. exists k. split; [reflexivity | exact Hk].
Qed.

(** X8: when the question text matches one of the keyword rules, the
    assignment returns for every question index and every option-list
    sequence, short or empty: each keyword branch checks the length before
    it reads a position. *)
Theorem keyword_rules_never_raise :
forall (question : Question optref) (tabs : store),
  keyword_rule (question_text question) = true ->
  exists question', _assign_table_options question tabs = Ok question'.
Proof.
intros question tabs Hk. apply assign_with_keyword. exact Hk.
Qed.

(** X9: for a question with text that matches no keyword rule and an index
    of at least 1, the assignment raises exactly when the index exceeds the
    number of option lists by two or more, and what it raises is
    [IndexError]. *)
Theorem default_fallback_raises_exactly :
forall (question : Question optref) (tabs : store),
  truthy (question_text question) = true ->
  keyword_rule (question_text question) = false ->
  1 <= index question ->
  (_assign_table_options question tabs = Raise IndexError
   <-> Z.of_nat (length tabs) + 2 <= index question)
  /\ (forall e, _assign_table_options question tabs = Raise e -> e = IndexError).
Proof.
intros question tabs Ht Hk Hi.
rewrite (assign_without_keyword question tabs Ht Hk).
apply default_fallback_raise_iff. exact Hi.
Qed.

(** X10: for such a question, when the assignment returns, the list it
    binds is never empty and is the list at position [index - 1] if that
    one exists and is non-empty, else the nearest non-empty list after that
    position, else the nearest non-empty list before it; the question is
    left as it is only when every list is empty. *)
Theorem default_fallback_binds_nearest :
forall (question question' : Question optref) (tabs : store),
  truthy (question_text question) = true ->
  keyword_rule (question_text question) = false ->
  1 <= index question ->
  _assign_table_options question tabs = Ok question' ->
  (question' = question /\ forall j, empty_at tabs j)
  \/ exists k,
      question' = bind_table question k
      /\ (k < length tabs)%nat
      /\ truthy (nth k tabs []) = true
      /\ (k = Z.to_nat (index question - 1)
          \/ ((Z.to_nat (index question - 1) < k)%nat
              /\ forall j, (Z.to_nat (index question - 1) <= j < k)%nat ->
                           empty_at tabs j)
          \/ ((k < Z.to_nat (index question - 1))%nat
              /\ forall j, (k < j)%nat -> empty_at tabs j)).
Proof.
intros question question' tabs Ht Hk Hi H.
rewrite (assign_without_keyword question tabs Ht Hk) in H.
apply default_fallback_result; assumption.
Qed.
End AssignmentTheorems.

Lemma assign_table_options_frame_witness :
let question := mkQuestion 2 (u "ASK ALL") (u "Q1x2") (u "您的年龄是?") [] (Own []) in
let tabs := [[mkOption (u "1") (u "男")]; [mkOption (u "1") (u "18-24")]] in
@_assign_table_options Latin1.tables question tabs = Ok (bind_table question 1)
/\ question_text (bind_table question 1) = question_text question
/\ (question_options (bind_table question 1) = question_options question
    \/ exists k, question_options (bind_table question 1) = Tab k
                 /\ (k < length tabs)%nat).
Proof.
intros question tabs.
assert (H : @_assign_table_options Latin1.tables question tabs
            = Ok (bind_table question 1)) by (vm_compute; reflexivity).
split; [exact H|].
destruct (@assign_table_options_frame Latin1.tables question (bind_table question 1)
            tabs H) as (_ & _ & _ & H4 & _ & H6).
split; [exact H4 | exact H6].
Defined.

Lemma keyword_rules_never_raise_witness :
let question := mkQuestion 40 (u "ASK ALL") (u "Q1x40") (u "您的职业是?") [] (Own []) in
@keyword_rule Latin1.tables (question_text question) = true
/\ exists question', @_assign_table_options Latin1.tables question [] = Ok question'.
Proof.
intros question.
assert (H : @keyword_rule Latin1.tables (question_text question) = true)
  by (vm_compute; reflexivity).
split; [exact H|].
apply (@keyword_rules_never_raise Latin1.tables question [] H).
Defined.

Lemma default_fallback_raises_exactly_witness :
let question := mkQuestion 4 (u "ASK ALL") (u "Q1x4") (u "Which brand?") [] (Own []) in
let tabs := [[mkOption (u "1") (u "A")]; []] in
truthy (question_text question) = true
/\ @keyword_rule Latin1.tables (question_text question) = false
/\ 1 <= index question
/\ @_assign_table_options Latin1.tables question tabs = Raise IndexError.
Proof.
intros question tabs.
assert (Ht : truthy (question_text question) = true) by reflexivity.
assert (Hk : @keyword_rule Latin1.tables (question_text question) = false)
  by (vm_compute; reflexivity).
assert (Hi : 1 <= index question) by (simpl; lia).
split; [exact Ht|]. split; [exact Hk|]. split; [exact Hi|].
apply (@default_fallback_raises_exactly Latin1.tables question tabs Ht Hk Hi).
simpl. lia.
Defined.

Lemma default_fallback_binds_nearest_witness :
let question := mkQuestion 2 (u "ASK ALL") (u "Q1x2") (u "Which brand?") [] (Own []) in
let tabs := [[mkOption (u "1") (u "A")]; []; [mkOption (u "1") (u "B")]] in
truthy (question_text question) = true
/\ @keyword_rule Latin1.tables (question_text question) = false
/\ 1 <= index question
/\ @_assign_table_options Latin1.tables question tabs = Ok (bind_table question 2)
/\ ((bind_table question 2 = question /\ forall j, empty_at tabs j)
    \/ exists k,
        bind_table question 2 = bind_table question k
        /\ (k < length tabs)%nat
        /\ truthy (nth k tabs []) = true
        /\ (k = Z.to_nat (index question - 1)
            \/ ((Z.to_nat (index question - 1) < k)%nat
                /\ forall j, (Z.to_nat (index question - 1) <= j < k)%nat ->
                             empty_at tabs j)
            \/ ((k < Z.to_nat (index question - 1))%nat
                /\ forall j, (k < j)%nat -> empty_at tabs j))).
Proof.
intros question tabs.
assert (Ht : truthy (question_text question) = true) by reflexivity.
assert (Hk : @keyword_rule Latin1.tables (question_text question) = false)
  by (vm_compute; reflexivity).
assert (Hi : 1 <= index question) by (simpl; lia).
assert (H : @_assign_table_options Latin1.tables question tabs
            = Ok (bind_table question 2)) by (vm_compute; reflexivity).
split; [exact Ht|]. split; [exact Hk|]. split; [exact Hi|]. split; [exact H|].
apply (@default_fallback_binds_nearest Latin1.tables question (bind_table question 2)
         tabs Ht Hk Hi H).
Defined.

(** *** The transitions of the segmentation loop *)

Section LoopCases.
Context {U : Unicode}.
Implicit Types (question current : Question optref) (tabs : store).

Lemma assign_core question question' tabs :
_assign_table_options question tabs = Ok question' -> core question' = core question.
Proof.
intros H. destruct (assign_cases _ _ H) as [->|[k [-> _]]]; reflexivity.
Qed.

Lemma finalize_on_marker_core paragraphs tabs current :
core (finalize_on_marker paragraphs tabs current) = core current.
Proof.
destruct (finalize_on_marker_type_only paragraphs tabs current) as [t ->]. reflexivity.
Qed.

Lemma finalize_at_end_core paragraphs tabs current current' :
finalize_at_end paragraphs tabs current = Ok current' -> core current' = core current.
Proof.
unfold finalize_at_end. intros H.
match type of H with
| bind ?m _ = _ => destruct m as [q1|] eqn:E; cbn [bind] in H; [|discriminate H]
end.
injection H as <-.
assert (E1 : core q1 = core current).
{ revert E. split_conditions; intros E;
    [apply assign_core in E; exact E | injection E as <-; reflexivity]. }
rewrite <- E1.
destruct (negb (truthy (question_type q1))); [|reflexivity].
destruct (find_type_only q1 paragraphs tabs) as [t ->]. reflexivity.
Qed.

(** The three kinds of transition of [loop_body]: a marker appends the
    question in progress and starts the next one; a type marker or an
    inline option updates the question in progress; anything else, and
    every non-marker paragraph before the first marker, changes nothing. *)
Lemma loop_body_cases paragraphs p following st st' :
loop_body paragraphs p following st = Ok st' ->
(is_marker p = true
 /\ (exists next,
        text_lookahead (mkQuestion (question_index st) (strip p) [] [] [] (Own []))
                       (table_options st) following = Ok next
        /\ current_question st' = Some next)
 /\ questions st'
    = questions st
      ++ match current_question st with
         | Some current => [finalize_on_marker paragraphs (table_options st) current]
         | None => []
         end
 /\ question_index st' = question_index st + 1
 /\ table_options st' = table_options st)
\/ (is_marker p = false
    /\ questions st' = questions st
    /\ question_index st' = question_index st
    /\ (st' = st
        \/ (exists current current',
               current_question st = Some current
               /\ current_question st' = Some current'
               /\ core current' = core current
               /\ table_options st' = table_options st
               /\ (question_options current' = question_options current
                   \/ exists k, question_options current' = Tab k
                                /\ (k < length (table_options st))%nat))
        \/ (exists current o,
               current_question st = Some current
               /\ current_question st'
                  = Some (set_question_options current
                            (fst (append_option (question_options current) o
                                                (table_options st))))
               /\ table_options st'
                  = snd (append_option (question_options current) o
                                       (table_options st))))).
Proof.
unfold loop_body, is_marker. intros H.
destruct (_is_answer_logic (strip p)).
- left.
  match type of H with
  | bind ?m _ = _ => destruct m as [q1|] eqn:E; cbn [bind] in H; [|discriminate H]
  end.
  injection H as <-. cbn [questions current_question question_index table_options].
  split; [reflexivity|]. split; [exists q1; split; reflexivity|].
  split; [destruct (current_question st); [reflexivity | symmetry; apply app_nil_r]|].
  split; reflexivity.
- right. split; [reflexivity|].
  destruct (current_question st) as [current|] eqn:C;
    [|injection H as <-; repeat split; left; reflexivity].
  destruct (_is_question_type (strip p)).
  + assert (Hq1 : forall m : option captures,
               core (match m with
                     | Some m => set_question_type current (group 1 (strip p) m)
                     | None => current
                     end) = core current
               /\ question_options (match m with
                     | Some m => set_question_type current (group 1 (strip p) m)
                     | None => current
                     end) = question_options current).
    { intros [m|]; split; reflexivity. }
    revert H.
    generalize (Hq1 (re_match true question_patterns.question_type (strip p))).
    generalize (match re_match true question_patterns.question_type (strip p) with
                | Some m => set_question_type current (group 1 (strip p) m)
                | None => current
                end).
    intros q1 [Hc1 Ho1] H.
    destruct (truthy (question_text q1)).
    * match type of H with
      | bind ?m _ = _ => destruct m as [q2|] eqn:E; cbn [bind] in H; [|discriminate H]
      end.
      injection H as <-. cbn [questions current_question question_index table_options].
      split; [reflexivity|]. split; [reflexivity|]. right. left.
      eexists current, _. split; [reflexivity|]. split; [reflexivity|].
      pose proof (assign_core _ _ E) as Hc2.
      destruct (assign_cases _ _ E) as [->|[k [-> Hk]]];
        split_conditions; to_props;
        (split; [rewrite <- Hc1; try rewrite <- Hc2; reflexivity|]);
        (split; [reflexivity|]);
        cbn [bind_table set_question_options question_options];
        first [ left; exact Ho1
              | right; eexists; split; [reflexivity|]; lia ].
    * injection H as <-. cbn [questions current_question question_index table_options].
      split; [reflexivity|]. split; [reflexivity|]. right. left.
      exists current, q1. repeat split; try assumption. left. exact Ho1.
  + destruct (_is_option (strip p));
      [|injection H as <-; repeat split; left; reflexivity].
    destruct (_parse_option (strip p)) as [o|];
      [|injection H as <-; repeat split; left; reflexivity].
    destruct (append_option (question_options current) o (table_options st))
      as [r tabs'] eqn:A.
    injection H as <-. cbn [questions current_question question_index table_options].
    split; [reflexivity|]. split; [reflexivity|]. right. right.
    exists current, o. rewrite A. split; [reflexivity|]. split; reflexivity.
Qed.

Lemma main_loop_no_marker paragraphs remaining st :
current_question st = None ->
Forall (fun p => is_marker p = false) remaining ->
main_loop paragraphs remaining st = Ok st.
Proof.
intros C H. induction H as [|p following Hp H IH]; cbn [main_loop]; [reflexivity|].
unfold loop_body at 1. unfold is_marker in Hp. rewrite Hp, C. cbn [bind]. exact IH.
Qed.

(** X11: when no paragraph is an answer-logic marker, segmentation returns
    the empty list of questions, whatever the other paragraphs and the
    option lists are: type markers, inline options and numbered lines
    before the first marker are dropped. *)
Theorem no_marker_no_question :
forall (paragraphs : list str) (tabs : store),
  Forall (fun p => _is_answer_logic (strip p) = false) paragraphs ->
  _parse_questions paragraphs tabs = Ok [].
Proof.
intros paragraphs tabs H.
unfold _parse_questions, parse_questions_refs.
rewrite main_loop_no_marker; [reflexivity | reflexivity | exact H].
Qed.
End LoopCases.

Lemma no_marker_no_question_witness :
let paragraphs := map u ["1.1 What is your gender?"; "Single Answer"; "Male 1"]%string in
Forall (fun p => @_is_answer_logic Latin1.tables (@strip Latin1.tables p) = false)
       paragraphs
/\ @_parse_questions Latin1.tables paragraphs [[mkOption (u "1") (u "Male")]] = Ok [].
Proof.
intros paragraphs.
assert (H : Forall (fun p => @_is_answer_logic Latin1.tables
                               (@strip Latin1.tables p) = false) paragraphs).
{ repeat constructor. }
split; [exact H|].
apply (@no_marker_no_question Latin1.tables paragraphs _ H).
Defined.

(** *** What segmentation keeps of the paragraphs *)

Lemma core_fields {O P} (q : Question O) (q' : Question P) :
core q' = core q ->
index q' = index q /\ answer_logic q' = answer_logic q
/\ question_id q' = question_id q /\ question_text q' = question_text q.
Proof.
unfold core. intros H. injection H as H1 H2 H3 H4. repeat split; assumption.
Qed.

Lemma labelled_core {O P} (q : Question O) (q' : Question P) :
core q' = core q -> labelled q -> labelled q'.
Proof.
intros H. apply core_fields in H. destruct H as (_ & _ & Hid & Htext).
unfold labelled. rewrite Hid, Htext. exact (fun x => x).
Qed.

Lemma generate_question_id_starts_with_Q (num : str) :
starts_with (u "Q") (_generate_question_id num) = true.
Proof.
unfold _generate_question_id.
destruct (split c_dot num) as [|a [|b [|c l]]]; reflexivity.
Qed.

Section Kept.
Context {U : Unicode}.
Implicit Types (question current : Question optref) (tabs : store).

Lemma text_lookahead_created question tabs following :
question_id question = [] ->
question_text question = [] ->
forall question',
  text_lookahead question tabs following = Ok question' ->
  index question' = index question
  /\ answer_logic question' = answer_logic question
  /\ labelled question'.
Proof.
intros Hid Htext.
induction following as [|p following IH]; cbn [text_lookahead]; intros question' H.
- injection H as <-. split; [reflexivity|]. split; [reflexivity|].
  left. split; assumption.
- destruct (truthy (strip p) && negb (_is_answer_logic (strip p))); [|apply IH; exact H].
  match type of H with
  | bind ?m _ = _ => destruct m as [q1|] eqn:E; cbn [bind] in H; [|discriminate H]
  end.
  injection H as <-.
  match goal with
  | |- context [type_lookahead q1 ?w] =>
      destruct (type_lookahead_type_only q1 w) as [t ->]
  end.
  assert (G : index q1 = index question /\ answer_logic q1 = answer_logic question
              /\ labelled q1).
  { revert E. split_conditions; intros E;
      first
        [ injection E as <-; split; [reflexivity|]; split; [reflexivity|];
          left; split; assumption
        | apply assign_core in E; apply core_fields in E;
          destruct E as (E1 & E2 & E3 & E4);
          split; [exact E1|]; split; [exact E2|];
          right; rewrite E3; cbn [set_question_text set_question_id question_id];
          first [apply generate_question_id_starts_with_Q | reflexivity] ]. }
  exact G.
Qed.

Lemma loop_body_logics paragraphs p following st st' :
loop_body paragraphs p following st = Ok st' ->
map answer_logic (questions st') ++ logic_of_current st'
= (map answer_logic (questions st) ++ logic_of_current st)
  ++ (if is_marker p then [strip p] else []).
Proof.
intros H. unfold logic_of_current.
destruct (loop_body_cases _ _ _ _ H)
  as [(M & (next & L & C') & Q & _ & _) | (M & Q & _ & Cases)]; rewrite M, Q.
- rewrite C'.
  apply text_lookahead_created in L; [|reflexivity|reflexivity].
  destruct L as (_ & L & _). cbn [answer_logic] in L. rewrite L.
  destruct (current_question st) as [current|].
  + rewrite map_app. cbn [map].
    pose proof (finalize_on_marker_core paragraphs (table_options st) current) as F.
    apply core_fields in F. destruct F as (_ & F & _). rewrite F.
    rewrite <- !app_assoc. reflexivity.
  + rewrite !app_nil_r. reflexivity.
- rewrite app_nil_r.
  destruct Cases as [->|[(current & current' & C & C' & K & _)|(current & o & C & C' & _)]].
  + reflexivity.
  + rewrite C, C'. apply core_fields in K. destruct K as (_ & K & _). rewrite K.
    reflexivity.
  + rewrite C, C'. reflexivity.
Qed.

Lemma main_loop_logics paragraphs remaining :
forall st st',
  main_loop paragraphs remaining st = Ok st' ->
  map answer_logic (questions st') ++ logic_of_current st'
  = (map answer_logic (questions st) ++ logic_of_current st)
    ++ map strip (filter is_marker remaining).
Proof.
induction remaining as [|p following IH]; intros st st' H; cbn [main_loop] in H.
- injection H as <-. symmetry. apply app_nil_r.
- destruct (loop_body paragraphs p following st) as [st1|] eqn:E;
    cbn [bind] in H; [|discriminate H].
  rewrite (IH _ _ H), (loop_body_logics _ _ _ _ E).
  cbn [filter]. destruct (is_marker p); cbn [map]; rewrite <- app_assoc; reflexivity.
Qed.

Lemma marker_is_not_empty (p : str) : is_marker p = true -> strip p <> [].
Proof.
unfold is_marker. intros H E. rewrite E in H. discriminate H.
Qed.

(** X12: the [answer_logic] values of the records, in order, are the
    trimmed paragraphs recognized as answer-logic markers, in order; none
    of them is empty. *)
Theorem answer_logic_are_the_markers :
forall (paragraphs : list str) (tabs : store)
       (qs : list (Question (list SurveyOption))),
  _parse_questions paragraphs tabs = Ok qs ->
  map answer_logic qs = map strip (filter is_marker paragraphs)
  /\ Forall (fun q => answer_logic q <> []) qs.
Proof.
intros paragraphs tabs qs H.
assert (E : map answer_logic qs = map strip (filter is_marker paragraphs)).
{ unfold _parse_questions, parse_questions_refs in H.
  destruct (main_loop paragraphs paragraphs (mkLocals [] None 1 tabs)) as [st|] eqn:M;
    cbn [bind] in H; [|discriminate H].
  pose proof (main_loop_logics _ _ _ M) as L.
  cbn [questions map app] in L. unfold logic_of_current in L. cbn [current_question] in L.
  cbn [app] in L. rewrite <- L.
  destruct (current_question st) as [current|].
  - destruct (finalize_at_end paragraphs (table_options st) current) as [c'|] eqn:F;
      cbn [bind] in H; [|discriminate H].
    injection H as <-. cbn [fst snd].
    apply finalize_at_end_core in F. apply core_fields in F.
    destruct F as (_ & F & _).
    rewrite map_map, map_app. cbn [map resolve set_question_options answer_logic].
    rewrite F. f_equal.
  - cbn [bind] in H. injection H as <-. cbn [fst snd].
    rewrite app_nil_r, map_map. reflexivity. }
split; [exact E|].
apply Forall_forall. intros q Hq.
apply (in_map answer_logic) in Hq. rewrite E in Hq.
apply in_map_iff in Hq. destruct Hq as [p [Hp Hin]].
apply filter_In in Hin. destruct Hin as [_ Hm].
rewrite <- Hp. apply marker_is_not_empty. exact Hm.
Qed.
End Kept.

Section KeptMore.
Context {U : Unicode}.
Implicit Types (question current : Question optref) (tabs : store).

Lemma loop_body_labelled paragraphs p following st st' :
all_labelled st ->
loop_body paragraphs p following st = Ok st' ->
all_labelled st'.
Proof.
intros [Hq Hc] H. unfold all_labelled.
destruct (loop_body_cases _ _ _ _ H)
  as [(M & (next & L & C') & Q & _ & _) | (M & Q & _ & Cases)]; rewrite Q.
- split.
  + apply Forall_app. split; [exact Hq|].
    destruct (current_question st) as [current|]; [|constructor].
    constructor; [|constructor].
    eapply labelled_core; [apply finalize_on_marker_core | apply Hc; reflexivity].
  + intros c E. rewrite C' in E. injection E as <-.
    apply text_lookahead_created in L; [apply L | reflexivity | reflexivity].
- split; [exact Hq|].
  destruct Cases as [->|[(current & current' & C & C' & K & _)|(current & o & C & C' & _)]].
  + exact Hc.
  + intros c E. rewrite C' in E. injection E as <-.
    eapply labelled_core; [exact K | apply Hc; exact C].
  + intros c E. rewrite C' in E. injection E as <-.
    eapply labelled_core; [|apply Hc; exact C]. reflexivity.
Qed.

Lemma main_loop_labelled paragraphs remaining :
forall st st',
  all_labelled st -> main_loop paragraphs remaining st = Ok st' -> all_labelled st'.
Proof.
induction remaining as [|p following IH]; intros st st' Hs H; cbn [main_loop] in H.
- injection H as <-. exact Hs.
- destruct (loop_body paragraphs p following st) as [st1|] eqn:E;
    cbn [bind] in H; [|discriminate H].
  eapply IH; [|exact H]. eapply loop_body_labelled; [exact Hs | exact E].
Qed.

(** X13: every record either has neither id nor text (no question line was
    found after its marker) or has an id that begins with Q; so a record
    with a text always has an id. *)
Theorem records_are_labelled :
forall (paragraphs : list str) (tabs : store)
       (qs : list (Question (list SurveyOption))),
  _parse_questions paragraphs tabs = Ok qs ->
  Forall (fun q => (question_id q = [] /\ question_text q = [])
                   \/ starts_with (u "Q") (question_id q) = true) qs.
Proof.
intros paragraphs tabs qs H.
unfold _parse_questions, parse_questions_refs in H.
destruct (main_loop paragraphs paragraphs (mkLocals [] None 1 tabs)) as [st|] eqn:M;
  cbn [bind] in H; [|discriminate H].
assert (H0 : all_labelled (mkLocals [] None 1 tabs)).
{ split; [constructor | intros c E; discriminate E]. }
destruct (main_loop_labelled _ _ H0 M) as [Hq Hc].
assert (R : forall l : list (Question optref),
           Forall labelled l -> Forall labelled (map (resolve (table_options st)) l)).
{ intros l Hl. apply Forall_forall. intros q Hin.
  apply in_map_iff in Hin. destruct Hin as [q0 [<- Hin0]].
  rewrite Forall_forall in Hl.
  eapply labelled_core; [|apply Hl; exact Hin0]. reflexivity. }
destruct (current_question st) as [current|].
- destruct (finalize_at_end paragraphs (table_options st) current) as [c'|] eqn:F;
    cbn [bind] in H; [|discriminate H].
  injection H as <-. cbn [fst snd]. apply R.
  apply Forall_app. split; [exact Hq|]. constructor; [|constructor].
  eapply labelled_core; [eapply finalize_at_end_core; exact F | apply Hc; reflexivity].
- cbn [bind] in H. injection H as <-. cbn [fst snd]. apply R. exact Hq.
Qed.

(** *** The store during segmentation *)

Lemma extends_refl tabs : extends tabs tabs.
Proof.
split; [reflexivity|]. intros k. exists []. symmetry. apply app_nil_r.
Qed.

Lemma extends_trans tabs1 tabs2 tabs3 :
extends tabs1 tabs2 -> extends tabs2 tabs3 -> extends tabs1 tabs3.
Proof.
intros [L1 E1] [L2 E2]. split; [congruence|].
intros k. destruct (E1 k) as [a1 H1]. destruct (E2 k) as [a2 H2].
exists (a1 ++ a2). rewrite H2, H1, app_assoc. reflexivity.
Qed.

Lemma append_at_other k j o tabs :
j <> k -> nth j (append_at k o tabs) [] = nth j tabs [].
Proof.
revert k j. induction tabs as [|l tabs IH]; intros k j Hne.
- destruct k; reflexivity.
- destruct k; destruct j; simpl; try reflexivity; try contradiction.
  apply IH. congruence.
Qed.

Lemma append_at_extends k o tabs : extends tabs (append_at k o tabs).
Proof.
split; [apply append_at_length|].
intros j. destruct (Nat.eq_dec j k) as [->|Hne].
- destruct (Nat.lt_ge_cases k (length tabs)) as [Hlt|Hge].
  + exists [o]. apply append_at_nth. exact Hlt.
  + exists []. rewrite app_nil_r, !nth_overflow; [reflexivity | exact Hge |].
    rewrite append_at_length. exact Hge.
- exists []. rewrite app_nil_r. apply append_at_other. exact Hne.
Qed.

Lemma loop_body_extends paragraphs p following st st' :
loop_body paragraphs p following st = Ok st' ->
extends (table_options st) (table_options st').
Proof.
intros H.
destruct (loop_body_cases _ _ _ _ H)
  as [(_ & _ & _ & _ & T) | (_ & _ & _ & Cases)].
- rewrite T. apply extends_refl.
- destruct Cases as [->|[(current & current' & _ & _ & _ & T & _)|(current & o & _ & _ & T)]].
  + apply extends_refl.
  + rewrite T. apply extends_refl.
  + rewrite T. unfold append_option.
    destruct (question_options current) as [l|k]; cbn [snd];
      [apply extends_refl | apply append_at_extends].
Qed.

Lemma main_loop_extends paragraphs remaining :
forall st st',
  main_loop paragraphs remaining st = Ok st' ->
  extends (table_options st) (table_options st').
Proof.
induction remaining as [|p following IH]; intros st st' H; cbn [main_loop] in H.
- injection H as <-. apply extends_refl.
- destruct (loop_body paragraphs p following st) as [st1|] eqn:E;
    cbn [bind] in H; [|discriminate H].
  eapply extends_trans; [eapply loop_body_extends; exact E | apply IH; exact H].
Qed.

Lemma no_option_no_parse (text : str) :
_is_option text = false -> _parse_option text = None.
Proof.
unfold _is_option, _parse_option.
destruct (re_match false question_patterns.option text); [discriminate|reflexivity].
Qed.

(** One pass of the loop changes list [k] by what [appended_by] names:
    the marker branch and the type-marker branch leave the store as it is,
    and the inline-option branch appends to the list the question in
    progress holds. *)
Lemma loop_body_appends paragraphs p following st st' k :
loop_body paragraphs p following st = Ok st' ->
(k < length (table_options st))%nat ->
nth k (table_options st') [] = nth k (table_options st) [] ++ appended_by k st p.
Proof.
unfold loop_body, appended_by. intros H Hk.
destruct (_is_answer_logic (strip p)); cbn [orb].
- match type of H with
  | bind ?m _ = _ => destruct m as [q1|] eqn:E; cbn [bind] in H; [|discriminate H]
  end.
  injection H as <-. cbn [table_options].
  destruct (current_question st); rewrite app_nil_r; reflexivity.
- destruct (current_question st) as [current|] eqn:C;
    [|injection H as <-; rewrite app_nil_r; reflexivity].
  destruct (_is_question_type (strip p)).
  + rewrite app_nil_r. revert H.
    generalize (match re_match true question_patterns.question_type (strip p) with
                | Some m => set_question_type current (group 1 (strip p) m)
                | None => current
                end).
    intros q1 H.
    destruct (truthy (question_text q1)).
    * match type of H with
      | bind ?m _ = _ => destruct m as [q2|] eqn:E; cbn [bind] in H; [|discriminate H]
      end.
      injection H as <-. reflexivity.
    * injection H as <-. reflexivity.
  + destruct (_is_option (strip p)) eqn:O.
    * destruct (_parse_option (strip p)) as [o|].
      -- unfold append_option in H.
         destruct (question_options current) as [l|j].
         ++ injection H as <-. cbn [table_options]. rewrite app_nil_r. reflexivity.
         ++ injection H as <-. cbn [table_options].
            destruct (Nat.eqb_spec j k) as [->|Hne].
            ** apply append_at_nth. exact Hk.
            ** rewrite app_nil_r. apply append_at_other. congruence.
      -- injection H as <-.
         destruct (question_options current); rewrite app_nil_r; reflexivity.
    * rewrite (no_option_no_parse _ O). injection H as <-.
      destruct (question_options current); rewrite app_nil_r; reflexivity.
Qed.

Lemma main_loop_appends paragraphs remaining k :
forall st st',
  main_loop paragraphs remaining st = Ok st' ->
  (k < length (table_options st))%nat ->
  nth k (table_options st') []
  = nth k (table_options st) [] ++ appended k paragraphs remaining st.
Proof.
induction remaining as [|p following IH]; intros st st' H Hk;
  cbn [main_loop appended] in *.
- injection H as <-. symmetry. apply app_nil_r.
- destruct (loop_body paragraphs p following st) as [st1|] eqn:E;
    cbn [bind] in H; [|discriminate H].
  assert (Hk1 : (k < length (table_options st1))%nat).
  { destruct (loop_body_extends _ _ _ _ E) as [L _]. rewrite L. exact Hk. }
  rewrite (IH _ _ H Hk1), (loop_body_appends _ _ _ _ E Hk), app_assoc. reflexivity.
Qed.

(** X14: segmentation never removes, reorders or replaces an option of the
    option-list sequence.  When it returns, the sequence has the same
    number of lists, and list [k] is its former content followed, in
    paragraph order, by exactly the options parsed from the paragraphs that
    reached the inline-option branch while the question in progress held
    list [k]; a list that no question in progress holds at such a paragraph
    is unchanged. *)
Theorem option_lists_only_grow :
forall (paragraphs : list str) (tabs tabs' : store) (qs : list (Question optref)),
  parse_questions_refs paragraphs tabs = Ok (qs, tabs') ->
  length tabs' = length tabs
  /\ forall k, (k < length tabs)%nat ->
               nth k tabs' []
               = nth k tabs [] ++ appended k paragraphs paragraphs (mkLocals [] None 1 tabs).
Proof.
intros paragraphs tabs tabs' qs H.
unfold parse_questions_refs in H.
destruct (main_loop paragraphs paragraphs (mkLocals [] None 1 tabs)) as [st|] eqn:M;
  cbn [bind] in H; [|discriminate H].
pose proof (main_loop_extends _ _ _ M) as [L _]. cbn [table_options] in L.
assert (A : forall k, (k < length tabs)%nat ->
            nth k (table_options st) []
            = nth k tabs [] ++ appended k paragraphs paragraphs (mkLocals [] None 1 tabs)).
{ intros k Hk. apply (main_loop_appends _ _ _ M). exact Hk. }
destruct (current_question st) as [current|].
- destruct (finalize_at_end paragraphs (table_options st) current) as [c'|];
    cbn [bind] in H; [|discriminate H].
  injection H as _ <-. split; [exact L | exact A].
- injection H as _ <-. split; [exact L | exact A].
Qed.
End KeptMore.

(** *** When segmentation returns *)

Section Returns.
Context {U : Unicode}.
Implicit Types (question current : Question optref) (tabs : store).

Lemma assign_in_range question tabs :
1 <= index question <= Z.of_nat (length tabs) + 1 ->
exists question', _assign_table_options question tabs = Ok question'.
Proof.
intros Hi.
destruct (truthy (question_text question)) eqn:T.
- destruct (keyword_rule (question_text question)) eqn:K.
  + apply assign_with_keyword. exact K.
  + rewrite (assign_without_keyword question tabs T K).
    destruct (default_fallback question tabs) as [q'|e] eqn:D; [eauto|].
    destruct (@default_fallback_raise_iff question tabs ltac:(lia)) as [Hiff Honly].
    rewrite (Honly e D) in D. apply Hiff in D. lia.
- exists question. apply assign_no_text. apply truthy_false. exact T.
Qed.

Lemma text_lookahead_in_range question tabs following :
1 <= index question <= Z.of_nat (length tabs) + 1 ->
exists question', text_lookahead question tabs following = Ok question'.
Proof.
intros Hi. induction following as [|p following IH]; cbn [text_lookahead].
- eauto.
- destruct (truthy (strip p) && negb (_is_answer_logic (strip p))); [|exact IH].
  match goal with
  | |- exists q', bind ?m _ = _ =>
      assert (E : exists q1, m = Ok q1)
  end.
  { split_conditions; try (eexists; reflexivity); apply assign_in_range; exact Hi. }
  destruct E as [q1 ->]. cbn [bind]. eauto.
Qed.

Lemma loop_body_within n paragraphs p following st :
within n st ->
(is_marker p = true -> question_index st <= Z.of_nat n + 1) ->
exists st', loop_body paragraphs p following st = Ok st' /\ within n st'.
Proof.
intros (Hl & Hq & Hc) Hm.
assert (E : exists st', loop_body paragraphs p following st = Ok st').
{ unfold loop_body. unfold is_marker in Hm.
  destruct (_is_answer_logic (strip p)).
  - destruct (@text_lookahead_in_range
                (mkQuestion (question_index st) (strip p) [] [] [] (Own []))
                (table_options st) following) as [q1 ->].
    { cbn [index]. rewrite Hl. specialize (Hm eq_refl). lia. }
    cbn [bind]. eauto.
  - destruct (current_question st) as [current|] eqn:C; [|eauto].
    destruct (_is_question_type (strip p)).
    + match goal with
      | |- context [truthy (question_text ?q)] =>
          assert (Hi : index q = index current) by (destruct (re_match _ _ _); reflexivity);
          generalize dependent q
      end.
      intros q1 Hi.
      destruct (truthy (question_text q1)); [|eauto].
      destruct (@assign_in_range q1 (table_options st)) as [q2 ->].
      { rewrite Hi, Hl. apply Hc. reflexivity. }
      cbn [bind]. eauto.
    + destruct (_is_option (strip p)); [|eauto].
      destruct (_parse_option (strip p)); [|eauto].
      destruct (append_option (question_options current) s (table_options st)).
      eauto. }
destruct E as [st' E]. exists st'. split; [exact E|].
pose proof (loop_body_extends _ _ _ _ E) as [Hlen _].
destruct (loop_body_cases _ _ _ _ E)
  as [(M & (next & L & C') & _ & Q & _) | (_ & _ & Q & Cases)].
- split; [congruence|]. split; [lia|].
  intros c Ec. rewrite C' in Ec. injection Ec as <-.
  apply text_lookahead_index in L. rewrite L. cbn [index].
  specialize (Hm M). lia.
- split; [congruence|]. split; [lia|].
  destruct Cases as [->|[(current & current' & C & C' & K & _)|(current & o & C & C' & _)]].
  + exact Hc.
  + intros c Ec. rewrite C' in Ec. injection Ec as <-.
    apply core_fields in K. destruct K as (K & _). rewrite K. apply Hc. exact C.
  + intros c Ec. rewrite C' in Ec. injection Ec as <-.
    cbn [set_question_options index]. apply Hc. exact C.
Qed.

Lemma main_loop_within n paragraphs remaining :
forall st,
  within n st ->
  question_index st + Z.of_nat (length (filter is_marker remaining)) <= Z.of_nat n + 2 ->
  exists st', main_loop paragraphs remaining st = Ok st' /\ within n st'.
Proof.
induction remaining as [|p following IH]; intros st Hw Hb; cbn [main_loop].
- eauto.
- cbn [filter] in Hb.
  destruct (@loop_body_within n paragraphs p following st Hw) as [st1 [E Hw1]].
  { intros M. rewrite M in Hb. cbn [length] in Hb. lia. }
  rewrite E. cbn [bind]. apply IH; [exact Hw1|].
  destruct (loop_body_cases _ _ _ _ E)
    as [(M & _ & _ & Q & _) | (M & _ & Q & _)]; rewrite M in Hb; cbn [length] in Hb; lia.
Qed.

(** X15: segmentation returns its records whenever the document has at
    most one answer-logic marker more than there are option lists; in
    particular a document with one question always converts, and so does
    any document with as many usable tables as questions. *)
Theorem enough_option_lists_no_exception :
forall (paragraphs : list str) (tabs : store),
  (length (filter is_marker paragraphs) <= length tabs + 1)%nat ->
  exists qs, _parse_questions paragraphs tabs = Ok qs.
Proof.
intros paragraphs tabs H.
unfold _parse_questions, parse_questions_refs.
destruct (@main_loop_within (length tabs) paragraphs paragraphs (mkLocals [] None 1 tabs))
  as [st [-> (Hl & _ & Hc)]].
{ split; [reflexivity|]. split; [cbn; lia|]. intros c E. discriminate E. }
{ cbn [question_index]. lia. }
cbn [bind].
destruct (current_question st) as [current|]; [|cbn [bind]; eauto].
assert (F : exists c', finalize_at_end paragraphs (table_options st) current = Ok c').
{ unfold finalize_at_end.
  destruct (negb (truthy (deref (table_options st) (question_options current)))).
  - destruct (@assign_in_range current (table_options st)) as [q1 ->].
    { rewrite Hl. apply Hc. reflexivity. }
    cbn [bind]. eauto.
  - cbn [bind]. eauto. }
destruct F as [c' ->]. cbn [bind]. eauto.
Qed.
End Returns.

Lemma enough_option_lists_no_exception_witness :
let paragraphs :=
  map u ["ASK ALL"; "1.1 First question"; "ASK ALL"; "1.2 Second question"]%string in
let tabs := [[mkOption (u "1") (u "Yes")]] in
(length (filter (@is_marker Latin1.tables) paragraphs) <= length tabs + 1)%nat
/\ exists qs, @_parse_questions Latin1.tables paragraphs tabs = Ok qs.
Proof.
intros paragraphs tabs.
assert (H : (length (filter (@is_marker Latin1.tables) paragraphs)
             <= length tabs + 1)%nat) by (vm_compute; lia).
split; [exact H|].
apply (@enough_option_lists_no_exception Latin1.tables paragraphs tabs H).
Defined.

Lemma answer_logic_are_the_markers_witness :
let paragraphs :=
  map u ["  ASK ALL "; "1.1 First question"; "ask if Q1x1=2"; "Second question"]%string in
exists qs,
  @_parse_questions Latin1.tables paragraphs [[mkOption (u "1") (u "Yes")]] = Ok qs
  /\ map answer_logic qs = [u "ASK ALL"; u "ask if Q1x1=2"]
  /\ map answer_logic qs
     = map (@strip Latin1.tables) (filter (@is_marker Latin1.tables) paragraphs).
Proof.
intros paragraphs.
destruct (@_parse_questions Latin1.tables paragraphs [[mkOption (u "1") (u "Yes")]])
  as [qs|e] eqn:E;
  [|vm_compute in E; discriminate E].
exists qs. split; [reflexivity|]. split.
- vm_compute in E. injection E as <-. reflexivity.
- apply (@answer_logic_are_the_markers Latin1.tables paragraphs _ qs E).
Defined.

Lemma records_are_labelled_witness :
let paragraphs := map u ["ASK ALL"; "1.4a Which one?"; "ASK ALL"]%string in
exists qs,
  @_parse_questions Latin1.tables paragraphs [] = Ok qs
  /\ map question_id qs = [u "Q1x4a"; []]
  /\ Forall (fun q => (question_id q = [] /\ question_text q = [])
                      \/ starts_with (u "Q") (question_id q) = true) qs.
Proof.
intros paragraphs.
destruct (@_parse_questions Latin1.tables paragraphs []) as [qs|e] eqn:E;
  [|vm_compute in E; discriminate E].
exists qs. split; [reflexivity|]. split.
- vm_compute in E. injection E as <-. reflexivity.
- apply (@records_are_labelled Latin1.tables paragraphs [] qs E).
Defined.

Lemma option_lists_only_grow_witness :
let paragraphs := map u ["ASK ALL"; "1.1 Which one?"; "Other 9"]%string in
let yes := mkOption (u "1") (u "Yes") in
let no := mkOption (u "2") (u "No") in
let tabs := [[yes]; [no]] in
exists qs tabs',
  @parse_questions_refs Latin1.tables paragraphs tabs = Ok (qs, tabs')
  /\ tabs' = [[yes; mkOption (u "9") (u "Other")]; [no]]
  /\ map (@question_options optref) qs = [Tab 0]
  /\ @appended Latin1.tables 0 paragraphs paragraphs (mkLocals [] None 1 tabs)
     = [mkOption (u "9") (u "Other")]
  /\ @appended Latin1.tables 1 paragraphs paragraphs (mkLocals [] None 1 tabs) = []
  /\ length tabs' = length tabs
  /\ forall k, (k < length tabs)%nat ->
               nth k tabs' []
               = nth k tabs []
                 ++ @appended Latin1.tables k paragraphs paragraphs (mkLocals [] None 1 tabs).
Proof.
intros paragraphs yes no tabs.
destruct (@parse_questions_refs Latin1.tables paragraphs tabs) as [[qs tabs']|e] eqn:E;
  [|vm_compute in E; discriminate E].
exists qs, tabs'. split; [reflexivity|].
assert (E' := E). vm_compute in E'. injection E' as <- <-.
split; [reflexivity|]. split; [reflexivity|].
split; [vm_compute; reflexivity|]. split; [vm_compute; reflexivity|].
apply (@option_lists_only_grow Latin1.tables paragraphs tabs _ _ E).
Defined.

(** *** The emission order *)

Section SortMore.
Context {O : Type}.
Implicit Types (q : Question O) (l : list (Question O)).

Lemma insert_permutation q l : Permutation (insert_by_index q l) (q :: l).
Proof.
induction l as [|x l IH]; simpl; [apply Permutation_refl|].
destruct (index q <=? index x); [apply Permutation_refl|].
eapply Permutation_trans; [apply perm_skip; exact IH | apply perm_swap].
Qed.

Lemma sort_permutation l : Permutation (sort_by_index l) l.
Proof.
induction l as [|q l IH]; simpl; [apply Permutation_refl|].
eapply Permutation_trans; [apply insert_permutation | apply perm_skip; exact IH].
Qed.

Lemma sort_same_index (i : Z) l :
Forall (fun q => index q = i) l -> sort_by_index l = l.
Proof.
induction 1 as [|q l Hq Hl IH]; simpl; [reflexivity|].
rewrite IH. apply insert_head.
eapply Forall_impl; [|exact Hl]. simpl. intros y Hy. lia.
Qed.

(** X16: the order in which the emitter works is the input order sorted by
    ascending [index]: the same records, none lost or repeated, and records
    with the same index keep the order they had in the file. *)
Theorem emission_order :
forall l : list (Question O),
  sorted (sort_by_index l)
  /\ Permutation (sort_by_index l) l
  /\ forall i, filter (fun q => index q =? i) (sort_by_index l)
               = filter (fun q => index q =? i) l.
Proof.
intros l. split; [apply sort_sorted|]. split; [apply sort_permutation|].
intros i. rewrite filter_sort. apply (@sort_same_index i).
apply Forall_forall. intros q Hq. apply filter_In in Hq.
destruct Hq as [_ Hq]. apply Z.eqb_eq in Hq. exact Hq.
Qed.
End SortMore.

(** *** The emitter's statistics and the children of the root *)

Lemma emit_question_step (root : list Element) (c : Counts)
  (question : Question (list SurveyOption)) :
(known_total (snd (emit_question (root, c) question))
 + count_unknown (snd (emit_question (root, c) question))
 = S (known_total c + count_unknown c))%nat
/\ (length (fst (emit_question (root, c) question)) + 2 * known_total c
    = length root + 2 * known_total (snd (emit_question (root, c) question)))%nat.
Proof.
unfold emit_question, known_total.
destruct (str_eqb (question_type question) (u "Single Answer"));
  [cbn [fst snd count_single_answer count_multiple_answers count_numeric count_unknown];
   rewrite length_app; simpl; lia|].
destruct (str_eqb (question_type question) (u "Multiple Answers"));
  [cbn [fst snd count_single_answer count_multiple_answers count_numeric count_unknown];
   rewrite length_app; simpl; lia|].
destruct (str_eqb (question_type question) (u "Numeric"));
  [cbn [fst snd count_single_answer count_multiple_answers count_numeric count_unknown];
   rewrite length_app; simpl; lia|].
cbn [fst snd count_single_answer count_multiple_answers count_numeric count_unknown].
lia.
Qed.

Lemma emit_loop_totals (l : list (Question (list SurveyOption))) :
forall root c,
  (known_total (snd (fold_left emit_question l (root, c)))
   + count_unknown (snd (fold_left emit_question l (root, c)))
   = known_total c + count_unknown c + length l)%nat
  /\ (length (fst (fold_left emit_question l (root, c))) + 2 * known_total c
      = length root + 2 * known_total (snd (fold_left emit_question l (root, c))))%nat.
Proof.
induction l as [|q l IH]; intros root c; cbn [fold_left].
- cbn [fst snd length]. lia.
- destruct (emit_question_step root c q) as [S1 S2].
  destruct (emit_question (root, c) q) as [root1 c1] eqn:E.
  cbn [fst snd] in S1, S2.
  destruct (IH root1 c1) as [I1 I2]. cbn [length]. lia.
Qed.

(** X17: the four counters of the emitter add up to the number of records
    read, and the root gets exactly two children (the element and its
    terminator) for every record counted under one of the three schemas. *)
Theorem emitter_statistics_add_up :
forall (root : list Element) (questions : list (Question (list SurveyOption))),
  let c := snd (emit_questions root questions) in
  (count_single_answer c + count_multiple_answers c + count_numeric c
   + count_unknown c = length questions)%nat
  /\ (length (fst (emit_questions root questions))
      = length root
        + 2 * (count_single_answer c + count_multiple_answers c + count_numeric c))%nat.
Proof.
intros root questions c. subst c. unfold emit_questions.
destruct (emit_loop_totals (sort_by_index questions) root (mkCounts 0 0 0 0))
  as [H1 H2].
unfold known_total in H1, H2. cbn [count_single_answer count_multiple_answers
                                   count_numeric count_unknown] in H1, H2.
rewrite (Permutation_length (sort_permutation questions)) in H1.
lia.
Qed.

Lemma emit_loop_appends (l : list (Question (list SurveyOption))) :
forall root c,
  fold_left emit_question l (root, c)
  = (root ++ fst (fold_left emit_question l ([], c)),
     snd (fold_left emit_question l ([], c))).
Proof.
induction l as [|q l IH]; intros root c; cbn [fold_left].
- cbn [fst snd]. rewrite app_nil_r. reflexivity.
- destruct (emit_question_frame root [] c c q) as (els & dc & E1 & E2).
  rewrite E1, E2. cbn [app].
  rewrite (IH (root ++ els)), (IH els).
  cbn [fst snd]. rewrite <- app_assoc. reflexivity.
Qed.

(** X18: the emitter only appends to the children of its root element: a
    generator that has already produced a document keeps those elements in
    front of the new ones, so a second [generate_xml] on the same generator
    writes both sets; the statistics do not depend on the root. *)
Theorem emitter_appends_to_root :
forall (root : list Element) (questions : list (Question (list SurveyOption))),
  fst (emit_questions root questions) = root ++ fst (emit_questions [] questions)
  /\ snd (emit_questions root questions) = snd (emit_questions [] questions).
Proof.
intros root questions. unfold emit_questions.
rewrite (emit_loop_appends (sort_by_index questions) root). split; reflexivity.
Qed.

(** *** Cleaning a free-text question line *)

Lemma split_head_no_sep (c : char) (s : str) : ~ In c (nth 0 (split c s) []).
Proof.
induction s as [|x s IH]; simpl; [exact (fun H => H)|].
destruct (char_eqb x c) eqn:E; [exact (fun H => H)|].
destruct (split c s) as [|w ws]; simpl in *.
- intros [H|[]]. subst x. unfold char_eqb in E. rewrite N.eqb_refl in E. discriminate E.
- intros [H|H]; [|exact (IH H)].
  subst x. unfold char_eqb in E. rewrite N.eqb_refl in E. discriminate E.
Qed.

Section Cleaning.
Context {U : Unicode}.

Lemma lstrip_incl (s : str) (x : char) : In x (lstrip s) -> In x s.
Proof.
induction s as [|y s IH]; simpl; [exact (fun H => H)|].
destruct (isspace y); [intros H; right; apply IH; exact H | exact (fun H => H)].
Qed.

Lemma strip_incl (s : str) (x : char) : In x (strip s) -> In x s.
Proof.
unfold strip, rstrip. intros H.
apply in_rev in H. apply lstrip_incl in H. apply in_rev in H.
apply lstrip_incl. exact H.
Qed.

Lemma empty_is_no_marker :
_is_question_type [] = false /\ _is_answer_logic [] = false /\ _is_option [] = false.
Proof.
repeat split; reflexivity.
Qed.

(** X19: the text that [_clean_question_text] returns is never recognized
    as a question-type marker nor as an answer-logic marker, and it holds
    no line break: a line that is itself a marker is cleaned to the empty
    text. *)
Theorem clean_question_text_is_no_marker :
forall text : str,
  _is_question_type (_clean_question_text text) = false
  /\ _is_answer_logic (_clean_question_text text) = false
  /\ ~ In c_newline (_clean_question_text text).
Proof.
intros text. unfold _clean_question_text.
destruct empty_is_no_marker as (E1 & E2 & _).
destruct (_is_question_type (strip (nth 0 (split c_newline text) []))) eqn:T.
- split; [exact E1|]. split; [exact E2|]. exact (fun H => H).
- destruct (_is_answer_logic (strip (nth 0 (split c_newline text) []))) eqn:A.
  + split; [exact E1|]. split; [exact E2|]. exact (fun H => H).
  + split; [exact T|]. split; [exact A|].
    intros H. apply strip_incl in H. exact (split_head_no_sep _ _ H).
Qed.

(** *** Content inference *)

(** X20: content inference either leaves the question as it is or writes
    one of the three types the emitter has a schema for, and writes nothing
    but the type: a question typed by this fallback is never skipped as
    Unknown at emission. *)
Theorem inferred_type_is_known :
forall (question : Question optref) (tabs : store),
  let question' := _infer_question_type_from_content question tabs in
  question' = question
  \/ (question' = set_question_type question (question_type question')
      /\ known_type (resolve tabs question') = true).
Proof.
intros question tabs question'. subst question'.
unfold _infer_question_type_from_content.
split_conditions; first [left; reflexivity | right; split; reflexivity].
Qed.
End Cleaning.

(** *** The statistics by type *)

Lemma str_eqb_eq (a b : str) : str_eqb a b = true <-> a = b.
Proof.
revert b. induction a as [|x a IH]; intros [|y b]; simpl; split; intros H;
  try reflexivity; try discriminate H.
- apply andb_true_iff in H. destruct H as [H1 H2].
  apply N.eqb_eq in H1. apply IH in H2. subst. reflexivity.
- injection H as -> ->. apply andb_true_iff. split; [apply N.eqb_refl|].
  apply IH. reflexivity.
Qed.

Lemma str_eqb_refl (a : str) : str_eqb a a = true.
Proof. apply str_eqb_eq. reflexivity. Qed.

Lemma dict_get_set (d : list (str * nat)) (k t : str) (v : nat) :
dict_get (dict_set d k v) t = if str_eqb k t then v else dict_get d t.
Proof.
induction d as [|[k' v'] d IH]; simpl.
- reflexivity.
- destruct (str_eqb k' k) eqn:E; simpl.
  + apply str_eqb_eq in E. subst k'. destruct (str_eqb k t); reflexivity.
  + rewrite IH. destruct (str_eqb k t) eqn:Ek; [|reflexivity].
    apply str_eqb_eq in Ek. subst t. rewrite E. reflexivity.
Qed.

Lemma dict_total_incr (d : list (str * nat)) (k : str) :
dict_total (dict_set d k (dict_get d k + 1)) = S (dict_total d).
Proof.
induction d as [|[k' v'] d IH]; simpl; [reflexivity|].
destruct (str_eqb k' k); simpl; [lia | rewrite IH; lia].
Qed.

Lemma dict_set_keys (d : list (str * nat)) (k : str) (v : nat) (x : str) :
In x (map fst (dict_set d k v)) -> x = k \/ In x (map fst d).
Proof.
induction d as [|[k' v'] d IH]; simpl; intros Hx.
- destruct Hx as [<-|[]]. left. reflexivity.
- destruct (str_eqb k' k); simpl in Hx.
  + right. exact Hx.
  + destruct Hx as [<-|Hx]; [right; left; reflexivity|].
    destruct (IH Hx) as [->|Hin]; [left; reflexivity | right; right; exact Hin].
Qed.

Lemma dict_keys_incr (d : list (str * nat)) (k : str) (v : nat) :
NoDup (map fst d) -> NoDup (map fst (dict_set d k v)).
Proof.
induction d as [|[k' v'] d IH]; simpl; intros H.
- constructor; [exact (fun F => F) | constructor].
- inversion H as [|? ? Hn Hd]; subst.
  destruct (str_eqb k' k) eqn:E; simpl.
  + constructor; assumption.
  + constructor; [|apply IH; exact Hd].
    intros Hin. destruct (dict_set_keys _ _ _ _ Hin) as [->|Hin'].
    * rewrite str_eqb_refl in E. discriminate E.
    * exact (Hn Hin').
Qed.

Lemma type_counts_from {O} (l : list (Question O)) :
forall d : list (str * nat),
  NoDup (map fst d) ->
  let d' := fold_left
              (fun type_counts q =>
                 let q_type := question_type q in
                 dict_set type_counts q_type (dict_get type_counts q_type + 1))
              l d in
  (forall t, dict_get d' t
             = (dict_get d t
                + length (filter (fun q => str_eqb (question_type q) t) l))%nat)
  /\ dict_total d' = (dict_total d + length l)%nat
  /\ NoDup (map fst d').
Proof.
induction l as [|q l IH]; intros d Hd; cbn [fold_left].
- cbn zeta. split; [intros t; simpl; lia|]. split; [simpl; lia | exact Hd].
- cbv zeta.
  destruct (IH (dict_set d (question_type q) (dict_get d (question_type q) + 1)))
    as (I1 & I2 & I3).
  { apply dict_keys_incr. exact Hd. }
  cbv zeta in I1, I2, I3.
  split; [|split; [|exact I3]].
  + intros t. rewrite I1, dict_get_set. cbn [filter].
    destruct (str_eqb (question_type q) t) eqn:E; cbn [length]; [|lia].
    apply str_eqb_eq in E. subst t. lia.
  + rewrite I2, dict_total_incr. cbn [length]. lia.
Qed.

(** X21: the statistics printed after a conversion give, for every type
    string, the number of records of exactly that type (0 for a type that
    does not occur); the counts add up to the number of records and no type
    is listed twice. *)
Theorem type_counts_count :
forall (O : Type) (questions : list (Question O)),
  (forall t, dict_get (type_counts questions) t
             = length (filter (fun q => str_eqb (question_type q) t) questions))
  /\ dict_total (type_counts questions) = length questions
  /\ NoDup (map fst (type_counts questions)).
Proof.
intros O questions. unfold type_counts.
destruct (type_counts_from questions []) as (H1 & H2 & H3); [constructor|].
cbv zeta in H1, H2, H3.
split; [|split; [exact H2 | exact H3]].
intros t. rewrite H1. reflexivity.
Qed.

(** *** The lines of the document written *)

Lemma split_parts_no_sep (c : char) (s : str) :
Forall (fun w => ~ In c w) (split c s).
Proof.
induction s as [|x s IH]; simpl.
- constructor; [exact (fun H => H) | constructor].
- destruct (char_eqb x c) eqn:E.
  + constructor; [exact (fun H => H) | exact IH].
  + destruct (split c s) as [|w ws]; [constructor; [|constructor]|].
    * intros [H|[]]. subst x. unfold char_eqb in E. rewrite N.eqb_refl in E.
      discriminate E.
    * inversion IH as [|? ? Hw Hws]; subst. constructor; [|exact Hws].
      intros [H|H]; [|exact (Hw H)].
      subst x. unfold char_eqb in E. rewrite N.eqb_refl in E. discriminate E.
Qed.

Lemma split_app_sep (c : char) (w rest : str) :
~ In c w -> split c (w ++ c :: rest) = w :: split c rest.
Proof.
intros H. apply split_at_sep. exact H.
Qed.

Lemma split_join (c : char) (ls : list str) :
ls <> [] ->
Forall (fun w => ~ In c w) ls ->
split c (join [c] ls) = ls.
Proof.
intros Hne H. destruct ls as [|w ls]; [contradiction|]. clear Hne.
revert w H. induction ls as [|w' ls IH]; intros w H; cbn [join flat_map].
- rewrite app_nil_r. apply split_no_sep. inversion H; assumption.
- inversion H as [|? ? Hw Hrest]; subst.
  change (w ++ ([c] ++ w') ++ flat_map (fun y => [c] ++ y) ls)
    with (w ++ c :: (w' ++ flat_map (fun y => [c] ++ y) ls)).
  rewrite split_at_sep by exact Hw. f_equal.
  apply (IH w' Hrest).
Qed.

Section WrittenDocument.
Context {U : Unicode}.
Variable toprettyxml : str -> result str.

(** X22: the document that [generate_xml] writes is empty or has no blank
    line: each of its lines holds a character that is not whitespace,
    whatever the pretty-printer returned. *)
Theorem written_document_has_no_blank_line :
forall (root root' : list Element) (questions : list (Question (list SurveyOption)))
       (counts : Counts) (document : str),
  generate_xml toprettyxml root questions = Ok (root', counts, document) ->
  document = []
  \/ Forall (fun line => strip line <> []) (split c_newline document).
Proof.
intros root root' questions counts document H.
unfold generate_xml in H.
destruct (emit_questions root questions) as [r c].
destruct (toprettyxml (xml_str r)) as [pretty|e]; cbn [bind] in H; [|discriminate H].
injection H as _ _ <-.
set (ls := filter (fun line => truthy (strip line)) (split c_newline pretty)).
destruct ls as [|w ls'] eqn:E; [left; reflexivity|].
right. rewrite <- E. rewrite split_join.
- subst ls. apply Forall_forall. intros line Hin. apply filter_In in Hin.
  destruct Hin as [_ Ht]. intros Z0. rewrite Z0 in Ht. discriminate Ht.
- rewrite E. discriminate.
- subst ls. apply Forall_forall. intros line Hin. apply filter_In in Hin.
  destruct Hin as [Hin _].
  pose proof (split_parts_no_sep c_newline pretty) as P.
  rewrite Forall_forall in P. apply P. exact Hin.
Qed.
End WrittenDocument.

Lemma written_document_has_no_blank_line_witness :
let question := mkQuestion 1 (u "ASK ALL") (u "Q1x1") (u "How many?") (u "Numeric") [] in
let spaced (xml : str) : result str := Ok (u "<survey>" ++ [c_newline; 32%N; c_newline]
                                              ++ xml ++ [c_newline]) in
exists root counts document,
  @generate_xml Latin1.tables spaced [] [question] = Ok (root, counts, document)
  /\ (document = []
      \/ Forall (fun line => @strip Latin1.tables line <> []) (split c_newline document)).
Proof.
intros question spaced.
destruct (@generate_xml Latin1.tables spaced [] [question]) as [[[root counts] document]|e]
  eqn:E; [|vm_compute in E; discriminate E].
exists root, counts, document. split; [reflexivity|].
apply (@written_document_has_no_blank_line Latin1.tables spaced [] root [question]
         counts document E).
Defined.

(** *** What a match tells about the subject *)

Lemma slice_middle (pre w post : str) :
slice (pre ++ w ++ post) (length pre) (length pre + length w) = w.
Proof.
unfold slice.
replace (length pre + length w - length pre)%nat with (length w) by lia.
rewrite skipn_app, Nat.sub_diag, skipn_all. cbn [app skipn].
rewrite firstn_app, Nat.sub_diag, firstn_all. cbn [firstn]. apply app_nil_r.
Qed.

Section RegexSound.
Context {U : Unicode}.
Variable ignorecase : bool.
Variable G : nat -> str -> Prop.
Variable t : str.

Lemma one_char_sound (p : char -> bool) pos s cs
  (k : nat -> str -> captures -> option captures) res :
one_char p pos s cs k = Some res ->
exists x s', s = x :: s' /\ p x = true /\ k (S pos) s' cs = Some res.
Proof.
unfold one_char. destruct s as [|x s']; [discriminate|].
destruct (p x) eqn:E; [|discriminate]. intros H. exists x, s'. auto.
Qed.

Lemma kept_refl cs : kept cs cs.
Proof. intros n H. exact H. Qed.

Lemma kept_trans cs1 cs2 cs3 : kept cs1 cs2 -> kept cs2 cs3 -> kept cs1 cs3.
Proof. intros H1 H2 n H. apply H2, H1, H. Qed.

Ltac leaf_case :=
  intros pre pos s cs k res _ Ht Hp Hv H; cbn [re_run] in H;
  apply one_char_sound in H; destruct H as (x & s' & -> & Hx & Hk);
  exists [x], s', cs;
  split; [reflexivity|];
  split; [exists x; split; [reflexivity | first [exact Hx | apply negb_true_iff; exact Hx]]|];
  split; [exact Hv|];
  split; [apply kept_refl|];
  split; [intros n []|];
  cbn [length]; rewrite Nat.add_1_r; exact Hk.

Lemma re_run_sound (r : regex) : sound ignorecase G t r.
Proof.
unfold sound.
induction r as [ | c | lo hi | | | | | r1 IH1 r2 IH2 | r1 IH1 r2 IH2 | g r1 IH1 | n r1 IH1].
- intros pre pos s cs k res _ Ht Hp Hv H. cbn [re_run] in H.
  exists [], s, cs. cbn [length app]. rewrite Nat.add_0_r.
  repeat split; try assumption; try apply kept_refl. intros n [].
- leaf_case.
- leaf_case.
- leaf_case.
- leaf_case.
- leaf_case.
- intros pre pos s cs k res _ Ht Hp Hv H. cbn [re_run] in H.
  exists [], s, cs. cbn [length app]. rewrite Nat.add_0_r.
  assert (Hk : k pos s cs = Some res).
  { destruct s as [|x [|y s]]; [exact H | | discriminate H].
    destruct (char_eqb x c_newline); [exact H | discriminate H]. }
  repeat split; try assumption; try apply kept_refl. intros n [].
- intros pre pos s cs k res [G1 G2] Ht Hp Hv H. cbn [re_run] in H.
  destruct (IH1 pre pos s cs _ res G1 Ht Hp Hv H)
    as (w1 & s1 & cs1 & -> & D1 & V1 & K1 & M1 & H1).
  destruct (IH2 (pre ++ w1) (pos + length w1)%nat s1 cs1 k res G2)
    as (w2 & s2 & cs2 & -> & D2 & V2 & K2 & M2 & H2).
  { rewrite Ht, app_assoc. reflexivity. }
  { rewrite length_app, Hp. reflexivity. }
  { exact V1. }
  { exact H1. }
  exists (w1 ++ w2), s2, cs2.
  split; [rewrite app_assoc; reflexivity|].
  split; [exists w1, w2; auto|].
  split; [exact V2|].
  split; [eapply kept_trans; eassumption|].
  split.
  + intros n Hn. cbn [must] in Hn. apply in_app_or in Hn. destruct Hn as [Hn|Hn].
    * apply K2, M1, Hn.
    * apply M2, Hn.
  + rewrite length_app, Nat.add_assoc. exact H2.
- intros pre pos s cs k res [G1 G2] Ht Hp Hv H. cbn [re_run] in H.
  destruct (re_run ignorecase r1 pos s cs k) as [res1|] eqn:E.
  + injection H as <-.
    destruct (IH1 pre pos s cs k res1 G1 Ht Hp Hv E)
      as (w1 & s1 & cs1 & -> & D1 & V1 & K1 & M1 & H1).
    exists w1, s1, cs1. repeat split; try assumption; [left; exact D1 | intros n []].
  + destruct (IH2 pre pos s cs k res G2 Ht Hp Hv H)
      as (w1 & s1 & cs1 & -> & D1 & V1 & K1 & M1 & H1).
    exists w1, s1, cs1. repeat split; try assumption; [right; exact D1 | intros n []].
- intros pre pos s cs k res G1 Ht Hp Hv H. cbn [groups_sat] in G1.
  change (re_run ignorecase (Star g r1) pos s cs k)
    with (star_iter ignorecase g r1 k (S (length s)) pos s cs) in H.
  assert (Hiter : forall fuel pre pos s cs,
             t = pre ++ s -> length pre = pos -> caps_valid G t cs ->
             star_iter ignorecase g r1 k fuel pos s cs = Some res ->
             exists w s' cs',
               s = w ++ s'
               /\ den ignorecase (Star g r1) w
               /\ caps_valid G t cs'
               /\ kept cs cs'
               /\ (forall n, In n (must (Star g r1)) -> capture n cs' <> None)
               /\ k (pos + length w)%nat s' cs' = Some res).
  { clear pre pos s cs Ht Hp Hv H.
    assert (Hstop : forall pos s cs,
               caps_valid G t cs -> k pos s cs = Some res ->
               exists w s' cs',
                 s = w ++ s'
                 /\ den ignorecase (Star g r1) w
                 /\ caps_valid G t cs'
                 /\ kept cs cs'
                 /\ (forall n, In n (must (Star g r1)) -> capture n cs' <> None)
                 /\ k (pos + length w)%nat s' cs' = Some res).
    { intros pos s cs Hv Hk. exists [], s, cs. cbn [length app]. rewrite Nat.add_0_r.
      split; [reflexivity|]. split; [exists []; split; [reflexivity | constructor]|].
      split; [exact Hv|]. split; [apply kept_refl|]. split; [intros n []| exact Hk]. }
    induction fuel as [|fuel IHf]; intros pre pos s cs Ht Hp Hv H; cbn [star_iter] in H.
    - apply Hstop; assumption.
    - assert (Hagain :
        re_run ignorecase r1 pos s cs
          (fun pos' s' cs' =>
             if (length s' <? length s)%nat
             then star_iter ignorecase g r1 k fuel pos' s' cs' else None) = Some res ->
        exists w s' cs',
          s = w ++ s'
          /\ den ignorecase (Star g r1) w
          /\ caps_valid G t cs'
          /\ kept cs cs'
          /\ (forall n, In n (must (Star g r1)) -> capture n cs' <> None)
          /\ k (pos + length w)%nat s' cs' = Some res).
      { intros Hr.
        destruct (IH1 pre pos s cs _ res G1 Ht Hp Hv Hr)
          as (w1 & s1 & cs1 & -> & D1 & V1 & K1 & M1 & H1).
        destruct (length s1 <? length (w1 ++ s1))%nat; [|discriminate H1].
        destruct (IHf (pre ++ w1) (pos + length w1)%nat s1 cs1)
          as (w2 & s2 & cs2 & -> & D2 & V2 & K2 & M2 & H2).
        { rewrite Ht, app_assoc. reflexivity. }
        { rewrite length_app, Hp. reflexivity. }
        { exact V1. }
        { exact H1. }
        exists (w1 ++ w2), s2, cs2.
        split; [rewrite app_assoc; reflexivity|].
        split; [destruct D2 as (ws & -> & Hws); exists (w1 :: ws);
                split; [reflexivity | constructor; assumption]|].
        split; [exact V2|].
        split; [eapply kept_trans; eassumption|].
        split; [intros n []|].
        rewrite length_app, Nat.add_assoc. exact H2. }
      destruct g.
      + match type of H with
        | match ?m with Some _ => _ | None => _ end = _ => destruct m as [res1|] eqn:E
        end.
        * injection H as <-. apply Hagain. reflexivity.
        * apply Hstop; assumption.
      + destruct (k pos s cs) as [res1|] eqn:E.
        * injection H as <-. apply Hstop; assumption.
        * apply Hagain. exact H. }
  exact (Hiter _ pre pos s cs Ht Hp Hv H).
- intros pre pos s cs k res [Gn G1] Ht Hp Hv H. cbn [re_run] in H.
  destruct (IH1 pre pos s cs _ res G1 Ht Hp Hv H)
    as (w1 & s1 & cs1 & -> & D1 & V1 & K1 & M1 & H1).
  exists w1, s1, ((n, (pos, (pos + length w1)%nat)) :: cs1).
  split; [reflexivity|]. split; [exact D1|].
  split.
  { intros m b e Hc. cbn [capture] in Hc.
    destruct (Nat.eqb n m) eqn:E.
    - apply Nat.eqb_eq in E. subst m. injection Hc as <- <-.
      rewrite Ht, <- Hp. rewrite slice_middle. apply Gn. exact D1.
    - apply (V1 m b e Hc). }
  split.
  { intros m Hm. cbn [capture]. destruct (Nat.eqb n m); [discriminate|].
    apply K1. exact Hm. }
  split.
  { intros m Hm. cbn [capture must] in *. destruct (Nat.eqb n m) eqn:E; [discriminate|].
    destruct Hm as [Hm|Hm]; [subst m; rewrite Nat.eqb_refl in E; discriminate E|].
    apply M1. exact Hm. }
  exact H1.
Qed.
End RegexSound.

Section MatchFacts.
Context {U : Unicode}.

Lemma re_match_sound (ignorecase : bool) (G : nat -> str -> Prop) (r : regex)
  (s : str) (cs : captures) :
groups_sat ignorecase G r ->
re_match ignorecase r s = Some cs ->
(exists w s', s = w ++ s' /\ den ignorecase r w)
/\ forall n, In n (must r) -> G n (group n s cs).
Proof.
intros Hg H. unfold re_match in H.
pose proof (@re_run_sound U ignorecase G s r) as S. unfold sound in S.
destruct (S [] 0%nat s [] (fun _ _ cs => Some cs) cs Hg eq_refl eq_refl)
  as (w & s' & cs' & E & D & V & _ & M & K).
{ intros n b e Hc. discriminate Hc. }
{ exact H. }
injection K as ->. split; [exists w, s'; auto|].
intros n Hn. unfold group.
destruct (capture n cs) as [[b e]|] eqn:C; [|exfalso; exact (M n Hn C)].
apply (V n b e C).
Qed.

Lemma den_plus (ignorecase g : bool) (r : regex) (P : char -> Prop) :
(forall w, den ignorecase r w -> exists x, w = [x] /\ P x) ->
forall w, den ignorecase (Plus g r) w -> w <> [] /\ Forall P w.
Proof.
intros Hr w (w1 & w2 & -> & D1 & ws & -> & Hws).
destruct (Hr _ D1) as (x & -> & Px).
split; [discriminate|].
constructor; [exact Px|].
induction Hws as [|w' ws Hw' Hws IH]; [constructor|].
cbn [concat]. apply Forall_app. split; [|exact IH].
destruct (Hr _ Hw') as (y & -> & Py). constructor; [exact Py | constructor].
Qed.

Lemma den_digits (ignorecase g : bool) (w : str) :
den ignorecase (Plus g Digit) w -> digits w.
Proof.
apply (@den_plus ignorecase g Digit (fun c => isdecimal c = true)).
intros w' H. exact H.
Qed.

Lemma den_anychars (ignorecase g : bool) (w : str) :
den ignorecase (Plus g AnyChar) w -> w <> [] /\ ~ In c_newline w.
Proof.
intros H.
destruct (@den_plus ignorecase g AnyChar (fun c => char_eqb c c_newline = false)
            (fun w' (H' : den ignorecase AnyChar w') => H') w H) as [Hne Hall].
split; [exact Hne|]. intros Hin. rewrite Forall_forall in Hall.
specialize (Hall _ Hin). unfold char_eqb in Hall. rewrite N.eqb_refl in Hall.
discriminate Hall.
Qed.

Lemma option_pattern_groups : groups_sat false option_groups question_patterns.option.
Proof.
unfold question_patterns.option, question_patterns.ws1, Plus. cbn [groups_sat].
split; [split; [|split; exact I]
       |split; [split; exact I | split; [split; [|split; exact I] | exact I]]].
- intros w H. split; intros E; [apply (@den_anychars false false w H) | discriminate E].
- intros w H. split; intros E; [discriminate E | apply (@den_digits false true w H)].
Qed.

Lemma den_optional_letter (w : str) :
den false (Opt (Alt (Range 97%N 122%N) (Range 65%N 90%N))) w ->
w = [] \/ exists x, w = [x] /\ ascii_letter x.
Proof.
intros [[(x & -> & Hx)|(x & -> & Hx)]| ->]; [right | right | left; reflexivity];
  exists x; (split; [reflexivity|]);
  unfold range_match in Hx; apply andb_true_iff in Hx; destruct Hx as [H1 H2];
  apply N.leb_le in H1, H2; [left | right]; split; assumption.
Qed.

Lemma number_pattern_groups :
groups_sat false number_groups question_patterns.question_number.
Proof.
unfold question_patterns.question_number, Plus, Opt. cbn [groups_sat].
split; [split; [|repeat split; exact I]
       |split; [exact I | split; [split; [|split; exact I] | exact I]]].
- intros w H. split; intros E; [|discriminate E].
  destruct H as (major & rest & -> & Dmaj & w2 & rest2 & -> & (x & -> & Hx)
                 & minor & letter & -> & Dmin & Dlet).
  cbn [lit_match] in Hx. apply N.eqb_eq in Hx. subst x.
  exists major, minor, letter. split; [reflexivity|].
  split; [apply (@den_digits false true major Dmaj)|].
  split; [apply (@den_digits false true minor Dmin)|].
  apply den_optional_letter. exact Dlet.
- intros w H. split; intros E; [discriminate E | apply (@den_anychars false true w H)].
Qed.

Lemma lstrip_keeps (s : str) (x : char) :
In x s -> isspace x = false -> In x (lstrip s).
Proof.
intros Hin Hx. induction s as [|y s IH]; [destruct Hin|]. cbn [lstrip].
destruct (isspace y) eqn:E; [|exact Hin].
destruct Hin as [->|Hin]; [rewrite Hx in E; discriminate E | apply IH; exact Hin].
Qed.

Lemma strip_keeps (s : str) (x : char) :
In x s -> isspace x = false -> In x (strip s).
Proof.
intros Hin Hx. unfold strip, rstrip.
apply -> in_rev. apply lstrip_keeps; [|exact Hx].
apply -> in_rev. apply lstrip_keeps; assumption.
Qed.

(** X23: an inline option parsed from a paragraph has a code made of
    decimal digits only and a text without a line break; when no decimal
    digit counts as whitespace, the code is not empty. *)
Theorem inline_option_code_is_numeric :
forall (text : str) (o : SurveyOption),
  _parse_option text = Some o ->
  Forall (fun c => isdecimal c = true) (option_code o)
  /\ ~ In c_newline (option_text o)
  /\ ((forall c, isdecimal c = true -> isspace c = false) -> option_code o <> []).
Proof.
intros text o H. unfold _parse_option in H.
destruct (re_match false question_patterns.option text) as [m|] eqn:E; [|discriminate H].
injection H as <-. cbn [option_code option_text].
destruct (@re_match_sound false option_groups _ _ _ option_pattern_groups E) as [_ Hg].
destruct (Hg 1%nat ltac:(cbn; auto)) as [[_ Hnl] _]; [reflexivity|].
destruct (Hg 2%nat ltac:(cbn; auto)) as [_ [Hne Hd]]; [reflexivity|].
split; [|split].
- apply Forall_forall. intros c Hc. apply strip_incl in Hc.
  rewrite Forall_forall in Hd. apply Hd. exact Hc.
- intros Hin. apply strip_incl in Hin. exact (Hnl Hin).
- intros Hsp Hempty.
  destruct (group 2 text m) as [|x w] eqn:Eg; [apply Hne; reflexivity|].
  assert (Hx : In x (strip (x :: w))).
  { apply strip_keeps; [left; reflexivity|]. apply Hsp.
    inversion Hd; assumption. }
  rewrite Hempty in Hx. destruct Hx.
Qed.

(** X24: for a paragraph that matches the numbered-question pattern, when
    the dot is not a decimal digit, the id is Q<major>x<minor> where
    <major>.<minor> is the numbering found, <major> is a non-empty run of
    decimal digits and <minor> such a run with at most one ASCII letter
    after it: the verbatim branch of [_generate_question_id] is never taken
    for a numbering the parser found. *)
Theorem numbered_question_id_shape :
forall (next_para : str) (m : captures),
  isdecimal c_dot = false ->
  re_match false question_patterns.question_number next_para = Some m ->
  exists major minor letter,
    group 1 next_para m = major ++ c_dot :: minor ++ letter
    /\ _generate_question_id (group 1 next_para m)
       = u "Q" ++ major ++ u "x" ++ minor ++ letter
    /\ digits major /\ digits minor
    /\ (letter = [] \/ exists x, letter = [x] /\ ascii_letter x).
Proof.
intros next_para m Hdot H.
destruct (@re_match_sound false number_groups _ _ _ number_pattern_groups H) as [_ Hg].
destruct (Hg 1%nat ltac:(cbn; auto)) as [Hshape _].
destruct (Hshape eq_refl) as (major & minor & letter & E & Dmaj & Dmin & Hl).
exists major, minor, letter. split; [exact E|]. split; [|auto].
rewrite E.
assert (Nmaj : ~ In c_dot major).
{ intros Hin. destruct Dmaj as [_ Hd]. rewrite Forall_forall in Hd.
  rewrite (Hd _ Hin) in Hdot. discriminate Hdot. }
assert (Nmin : ~ In c_dot (minor ++ letter)).
{ intros Hin. apply in_app_or in Hin. destruct Hin as [Hin|Hin].
  - destruct Dmin as [_ Hd]. rewrite Forall_forall in Hd.
    rewrite (Hd _ Hin) in Hdot. discriminate Hdot.
  - destruct Hl as [->|(x & -> & Hx)]; [destruct Hin|].
    destruct Hin as [Hx0|[]]. subst x. unfold ascii_letter, c_dot in Hx. lia. }
unfold _generate_question_id.
rewrite split_at_sep by exact Nmaj. rewrite split_no_sep by exact Nmin.
reflexivity.
Qed.
End MatchFacts.

Lemma latin1_digits_are_not_spaces (c : char) :
Latin1.isdecimal c = true -> Latin1.isspace c = false.
Proof.
unfold Latin1.isdecimal, Latin1.in_range. intros H.
apply andb_true_iff in H. destruct H as [H1 H2]. apply N.leb_le in H1, H2.
assert (E : (c = 48 \/ c = 49 \/ c = 50 \/ c = 51 \/ c = 52 \/ c = 53 \/ c = 54
             \/ c = 55 \/ c = 56 \/ c = 57)%N) by lia.
repeat (destruct E as [->|E]; [reflexivity|]). subst c. reflexivity.
Qed.

Lemma inline_option_code_is_numeric_witness :
exists o,
  @_parse_option Latin1.tables (u "Strongly agree  5") = Some o
  /\ o = mkOption (u "5") (u "Strongly agree")
  /\ Forall (fun c => Latin1.isdecimal c = true) (option_code o)
  /\ option_code o <> [].
Proof.
destruct (@_parse_option Latin1.tables (u "Strongly agree  5")) as [o|] eqn:E;
  [|vm_compute in E; discriminate E].
exists o. split; [reflexivity|]. split.
- vm_compute in E. injection E as <-. reflexivity.
- destruct (@inline_option_code_is_numeric Latin1.tables (u "Strongly agree  5") o E)
    as (H1 & _ & H3).
  split; [exact H1|]. apply H3. exact latin1_digits_are_not_spaces.
Defined.

Lemma numbered_question_id_shape_witness :
exists m,
  @isdecimal Latin1.tables c_dot = false
  /\ @re_match Latin1.tables false question_patterns.question_number
       (u "1.4a Which card do you hold?") = Some m
  /\ _generate_question_id (group 1 (u "1.4a Which card do you hold?") m) = u "Q1x4a"
  /\ exists major minor letter,
      group 1 (u "1.4a Which card do you hold?") m = major ++ c_dot :: minor ++ letter
      /\ _generate_question_id (group 1 (u "1.4a Which card do you hold?") m)
         = u "Q" ++ major ++ u "x" ++ minor ++ letter
      /\ @digits Latin1.tables major /\ @digits Latin1.tables minor
      /\ (letter = [] \/ exists x, letter = [x] /\ ascii_letter x).
Proof.
destruct (@re_match Latin1.tables false question_patterns.question_number
            (u "1.4a Which card do you hold?")) as [m|] eqn:E;
  [|vm_compute in E; discriminate E].
exists m.
assert (Hdot : @isdecimal Latin1.tables c_dot = false) by reflexivity.
split; [exact Hdot|]. split; [reflexivity|]. split.
- vm_compute in E. injection E as <-. vm_compute. reflexivity.
- apply (@numbered_question_id_shape Latin1.tables _ m Hdot E).
Defined.

(** *** Re-running the pipeline *)






Section Rerun.
Context {U : Unicode}.
Variable toprettyxml : str -> result str.









End Rerun.


